(** * The Goehring polarity model: a shallow embedding of [models/goehring.py]

    The program integrates a one-dimensional reaction-diffusion-advection
    system for two species A and P by the method of lines.  This file embeds
    the numerical core ([disc_diffusion_term], [disc_spatial_derivative],
    [R_A], [R_P], [odefunc]), the cytoplasmic feedback ([Ybar],
    [default_A_cyto], [default_P_cyto]) and the driver ([run_model]).

    Modelling conventions.
    - Python floats are idealised as rationals [Q]; arithmetic facts are
      stated up to [==], structural facts up to [=].  Rounding and
      infinities are outside the model.  NaN is a value of the state in the
      second embedding of the right-hand side, module [Nan], on which the
      divergence check is studied.
    - Python integers are [Z]; subscripting follows Python (negative
      subscripts count from the end, anything else out of range raises
      [IndexError]).
    - Exceptions and the calls made to the pluggable capabilities and to the
      failure reporter are threaded through a small writer/error monad [M].
    - Dictionaries handled by the driver live in a store of mappings
      ([gmap string value]) addressed by locations. *)

From Stdlib Require Import QArith Qabs Qminmax Qround Lia Lqa ZArith.
From stdpp Require Import base gmap list strings.

Local Open Scope Q_scope.

(** ** Python runtime: exceptions, effects, sequences *)

Module Py.

Inductive exn : Type :=
| AssertionError
| IndexError
| KeyError
| TypeError
| ValueError.

(** What an evaluation of the right-hand side does besides computing:
    it prints, it calls the failure reporter, it calls the three pluggable
    capabilities. *)
Inductive event : Type :=
| EvPrint
| EvFailurePlot (U : list Q) (t : Q)
| EvA_cyto (A : list Q)
| EvP_cyto (P : list Q)
| EvV_func (x t : Q).

Definition M (A : Type) : Type := (exn + A) * list event.

Definition ret {A} (a : A) : M A := (inr a, []).
Definition raise {A} (e : exn) : M A := (inl e, []).
Definition emit (ev : event) : M unit := (inr tt, [ev]).

Definition bind {A B} (m : M A) (f : A → M B) : M B :=
  match m with
  | (inl e, l) => (inl e, l)
  | (inr a, l) => let '(r, l') := f a in (r, l ++ l')
  end.

#[global] Instance M_ret : MRet M := @ret.
#[global] Instance M_bind : MBind M := λ A B f m, bind m f.

(** Exceptions alone, for code that makes no call worth recording. *)
#[global] Instance exn_ret : MRet (sum exn) := λ A a, inr a.
#[global] Instance exn_bind : MBind (sum exn) := λ A B f r,
  match r with inl e => inl e | inr a => f a end.

Definition outcome {A} (m : M A) : exn + A := fst m.
Definition trace {A} (m : M A) : list event := snd m.

(** [assert c] *)
Definition assert (c : bool) : M unit :=
  if c then ret tt else raise AssertionError.

Definition Qltb (x y : Q) : bool :=
  match x ?= y with Lt => true | _ => false end.

Definition len {A} (l : list A) : Z := Z.of_nat (length l).

(** [Y[i]] on a sequence. *)
Definition getitem (Y : list Q) (i : Z) : M Q :=
  let j := (if i <? 0 then i + len Y else i)%Z in
  if ((0 <=? j) && (j <? len Y))%Z
  then ret (nth (Z.to_nat j) Y 0)
  else raise IndexError.

(** [Y[i] = v] on an array: the array after the assignment. *)
Definition setitem (Y : list Q) (i : Z) (v : Q) : M (list Q) :=
  let j := (if i <? 0 then i + len Y else i)%Z in
  if ((0 <=? j) && (j <? len Y))%Z
  then ret (<[Z.to_nat j := v]> Y)
  else raise IndexError.

(** A bound [n] of a slice, resolved against a sequence of length [k]. *)
Definition slice_bound (k n : Z) : nat :=
  Z.to_nat (Z.min k (if n <? 0 then Z.max 0 (n + k) else n))%Z.

(** [U[:n]] and [U[n:]] *)
Definition slice_to (U : list Q) (n : Z) : list Q :=
  take (slice_bound (len U) n) U.
Definition slice_from (U : list Q) (n : Z) : list Q :=
  drop (slice_bound (len U) n) U.

(** The builtins [min] and [max] over a sequence of numbers: the first
    smallest (largest) item; [ValueError] on an empty sequence.  On a
    sequence that holds NaN they are [Nan.min] and [Nan.max]. *)
Definition min (U : list Q) : M Q :=
  match U with
  | [] => raise ValueError
  | u :: U' => ret (foldl (λ m x, if Qltb x m then x else m) u U')
  end.

Definition max (U : list Q) : M Q :=
  match U with
  | [] => raise ValueError
  | u :: U' => ret (foldl (λ m x, if Qltb m x then x else m) u U')
  end.

(** [for x in xs: s = body(x, s)] *)
Fixpoint for_each {T S} (xs : list T) (body : T → S → M S) (s : S) : M S :=
  match xs with
  | [] => ret s
  | x :: xs' => s' ← body x s; for_each xs' body s'
  end.

End Py.

Import Py.

(** ** The numpy routines the program calls

    These belong to the numerical library, not to the program; they are
    written from the library's documentation. *)

Module Np.

(** [np.arange(a, b)] over integers. *)
Definition arange (a b : Z) : list Z := seqZ a (b - a).

(** [np.zeros(n)] *)
Definition zeros (n : Z) : M (list Q) :=
  if (n <? 0)%Z then raise ValueError else ret (replicate (Z.to_nat n) 0).

(** [np.linspace(start, stop, num)]: [num] evenly spaced samples over
    [[start, stop]], the last one being [stop] itself. *)
Definition linspace (start stop : Q) (num : Z) : M (list Q) :=
  if (num <? 0)%Z then raise ValueError
  else
    let n := Z.to_nat num in
    let step := (stop - start) / inject_Z (num - 1) in
    let y := (λ i : nat, inject_Z (Z.of_nat i) * step + start) <$> seq 0 n in
    ret (if (1 <? num)%Z then <[pred n := stop]> y else y).

(** [np.ravel(rows, order='F')] of a list of equally long rows: the
    columns one after the other. *)
Definition ravel_F (rows : list (list Q)) : list Q :=
  let ncols := match rows with [] => O | r :: _ => length r end in
  mjoin ((λ j, (λ r, nth j r 0) <$> rows) <$> seq 0 ncols).

(** [np.ravel(rows)] in the default row-major order. *)
Definition ravel (rows : list (list Q)) : list Q := mjoin rows.

End Np.

(** ** The resolved configuration

    [kvals] is the mapping built by [run_model] and handed to every function
    of the core.  The core reads it through fixed keys, so it is read here as
    a record: [params] holds the entries that are data, [kvals] adds the
    three pluggable functions, which receive the data entries. *)

Record params : Type := {
  label : string;
  points_per_second : Q;
  Nx : Z;
  L : Q;
  x0 : Q;
  xL : Q;
  t0 : Q;
  tL : Q;
  psi : Q;
  D_A : Q;
  D_P : Q;
  k_onA : Q;
  k_onP : Q;
  k_offA : Q;
  k_offP : Q;
  k_AP : Q;
  k_PA : Q;
  rho_A : Q;
  rho_P : Q;
  alpha : Z;
  beta : Z;
  X : list Q;
  deltax : Q
}.

Definition cyto_fn : Type := params → list Q → Q.
Definition vel_fn : Type := params → Q → Q → Q.

Record kvals : Type := {
  par :> params;
  A_cyto : cyto_fn;
  P_cyto : cyto_fn;
  v_func : vel_fn
}.

(** ** Velocity field and cytoplasmic feedback *)

Definition default_v_func (kv : params) (x t : Q) : Q :=
  - x * (x - 190) * (x - 35)
  / (700000 * (Qmax 1 (Qabs ((t - 120) / 80))) ^ 2).

Section Feedback.

(** [scipy.integrate.simpson(y, x)], the quadrature routine of the numerical
    library: samples first, then their positions. *)
Variable simpson : list Q → list Q → Q.

Definition Ybar (kv : params) (Y : list Q) : Q :=
  2 * simpson Y (X kv) / L kv.

Definition default_A_cyto (kv : params) (A : list Q) : Q :=
  rho_A kv - psi kv * Ybar kv A.

Definition default_P_cyto (kv : params) (P : list Q) : Q :=
  rho_P kv - psi kv * Ybar kv P.

End Feedback.

(** ** Spatial discretisation and reaction kinetics *)

Definition disc_diffusion_term (kv : kvals) (Y : list Q) (x_i : Z) : M Q :=
  if (x_i =? 0)%Z then
    a ← getitem Y 1; b ← getitem Y 0; c ← getitem Y 1;
    mret ((a - 2 * b + c) / deltax kv ^ 2)
  else if (x_i =? Nx kv - 1)%Z then
    a ← getitem Y (Nx kv - 2); b ← getitem Y (Nx kv - 1);
    c ← getitem Y (Nx kv - 2);
    mret ((a - 2 * b + c) / deltax kv ^ 2)
  else
    a ← getitem Y (x_i + 1); b ← getitem Y x_i; c ← getitem Y (x_i - 1);
    mret ((a - 2 * b + c) / deltax kv ^ 2).

Definition disc_spatial_derivative (kv : kvals) (func : Z → M Q) (x_i : Z)
  : M Q :=
  f1 ← func (x_i + 1)%Z; f0 ← func x_i;
  mret ((f1 - f0) / deltax kv).

Definition R_A (kv : kvals) (A P : list Q) (A_cyto_r t : Q) (x_i : Z) : M Q :=
  a ← getitem A x_i; p ← getitem P x_i; a' ← getitem A x_i;
  mret (k_onA kv * A_cyto_r - k_offA kv * a - k_AP kv * (p ^ alpha kv) * a').

Definition R_P (kv : kvals) (A P : list Q) (P_cyto_r t : Q) (x_i : Z) : M Q :=
  p ← getitem P x_i; a ← getitem A x_i; p' ← getitem P x_i;
  mret (k_onP kv * P_cyto_r - k_offP kv * p - k_PA kv * (a ^ beta kv) * p').

(** ** Calls to the pluggable capabilities *)

Definition call_A_cyto (kv : kvals) (A : list Q) : M Q :=
  _ ← emit (EvA_cyto A); mret (A_cyto kv kv A).

Definition call_P_cyto (kv : kvals) (P : list Q) : M Q :=
  _ ← emit (EvP_cyto P); mret (P_cyto kv kv P).

Definition call_v_func (kv : kvals) (x t : Q) : M Q :=
  _ ← emit (EvV_func x t); mret (v_func kv kv x t).

(** The failure reporter: it evaluates the velocity at every grid point and
    renders; rendering is one opaque event. *)
Definition plot_failure (U : list Q) (t : Q) (kv : kvals) : M unit :=
  _ ← for_each (X kv) (λ x (_ : unit), _ ← call_v_func kv x t; mret tt) tt;
  emit (EvFailurePlot U t).

(** ** The right-hand side *)

(** The flux [x_ii ↦ v(X[x_ii], t) * Y[x_ii]] handed to
    [disc_spatial_derivative]. *)
Definition flux (kv : kvals) (Y : list Q) (t : Q) (x_ii : Z) : M Q :=
  x ← getitem (X kv) x_ii; v ← call_v_func kv x t; y ← getitem Y x_ii;
  mret (v * y).

(** The right-boundary advection term
    [(-v(X[Nx-2], t) * Y[Nx-2] - v(X[Nx-1], t) * Y[Nx-1]) / deltax]. *)
Definition right_boundary_flux (kv : kvals) (Y : list Q) (t : Q) : M Q :=
  x2 ← getitem (X kv) (Nx kv - 2); v2 ← call_v_func kv x2 t;
  y2 ← getitem Y (Nx kv - 2);
  x1 ← getitem (X kv) (Nx kv - 1); v1 ← call_v_func kv x1 t;
  y1 ← getitem Y (Nx kv - 1);
  mret ((- v2 * y2 - v1 * y1) / deltax kv).

Definition odefunc (t : Q) (U : list Q) (kv : kvals) : M (list Q) :=
  _ ← assert (len U =? 2 * Nx kv)%Z;
  lo ← Py.min U;
  diverged ← (if Qltb lo (-100) then mret true
              else hi ← Py.max U; mret (Qltb 100 hi));
  if diverged : bool then
    _ ← emit EvPrint;
    _ ← plot_failure U t kv;
    raise AssertionError
  else
    let A := slice_to U (Nx kv) in
    let P := slice_from U (Nx kv) in
    dudt_A ← Np.zeros (Nx kv);
    dudt_P ← Np.zeros (Nx kv);
    A_cyto_r ← call_A_cyto kv A;
    P_cyto_r ← call_P_cyto kv P;
    dA ← disc_diffusion_term kv A (Nx kv - 1);
    fA ← right_boundary_flux kv A t;
    rA ← R_A kv A P A_cyto_r t (Nx kv - 1);
    dudt_A ← setitem dudt_A (Nx kv - 1) (D_A kv * dA - fA + rA);
    dP ← disc_diffusion_term kv P (Nx kv - 1);
    fP ← right_boundary_flux kv P t;
    rP ← R_P kv A P P_cyto_r t (Nx kv - 1);
    dudt_P ← setitem dudt_P (Nx kv - 1) (D_P kv * dP - fP + rP);
    '(dudt_A, dudt_P) ←
      for_each (Np.arange 0 (Nx kv - 1))
        (λ x_i '(dudt_A, dudt_P),
           dA ← disc_diffusion_term kv A x_i;
           fA ← disc_spatial_derivative kv (flux kv A t) x_i;
           rA ← R_A kv A P A_cyto_r t x_i;
           dudt_A ← setitem dudt_A x_i (D_A kv * dA - fA + rA);
           dP ← disc_diffusion_term kv P x_i;
           fP ← disc_spatial_derivative kv (flux kv P t) x_i;
           rP ← R_P kv A P P_cyto_r t x_i;
           dudt_P ← setitem dudt_P x_i (D_P kv * dP - fP + rP);
           mret (dudt_A, dudt_P))
        (dudt_A, dudt_P);
    mret (Np.ravel [dudt_A; dudt_P]).

(** ** The right-hand side on states that may hold NaN

    The divergence check of [odefunc] compares through the builtins [min]
    and [max], whose answer depends on where a NaN stands in the vector.
    This second embedding of the right-hand side keeps NaN as a value of
    the state: a float is a number or NaN, an operation on numbers is the
    rational one, and NaN absorbs.  Parameters, grid and time stay numbers;
    infinities, which compare like numbers, and rounding stay outside.  On
    states of numbers the two embeddings agree ([odefunc_on_numbers]). *)

Module Nan.

Inductive float : Type :=
| num (q : Q)
| nan.

Coercion num : Q >-> float.

Definition lift2 (f : Q → Q → Q) (x y : float) : float :=
  match x, y with
  | num a, num b => num (f a b)
  | _, _ => nan
  end.

Definition add : float → float → float := lift2 Qplus.
Definition sub : float → float → float := lift2 Qminus.
Definition mul : float → float → float := lift2 Qmult.
Definition div : float → float → float := lift2 Qdiv.

Definition opp (x : float) : float :=
  match x with num a => num (- a) | nan => nan end.

(** [x ** n]: one for a zero exponent, whatever [x] is. *)
Definition pow (x : float) (n : Z) : float :=
  if (n =? 0)%Z then num 1
  else match x with num a => num (a ^ n) | nan => nan end.

(** [x < y] and [x > y]: false as soon as an operand is NaN. *)
Definition lt (x y : float) : bool :=
  match x, y with
  | num a, num b => Qltb a b
  | _, _ => false
  end.

Definition gt (x y : float) : bool := lt y x.

Declare Scope float_scope.
Delimit Scope float_scope with F.
Bind Scope float_scope with float.

Infix "+" := add : float_scope.
Infix "-" := sub : float_scope.
Infix "*" := mul : float_scope.
Infix "/" := div : float_scope.
Infix "^" := pow : float_scope.
Notation "- x" := (opp x) : float_scope.

(** Exceptions and calls as in [Py], with floats in the recorded
    arguments. *)
Inductive event : Type :=
| EvPrint
| EvFailurePlot (U : list float) (t : Q)
| EvA_cyto (A : list float)
| EvP_cyto (P : list float)
| EvV_func (x t : Q).

Definition M (A : Type) : Type := (exn + A) * list event.

Definition ret {A} (a : A) : M A := (inr a, []).
Definition raise {A} (e : exn) : M A := (inl e, []).
Definition emit (ev : event) : M unit := (inr tt, [ev]).

Definition bind {A B} (m : M A) (f : A → M B) : M B :=
  match m with
  | (inl e, l) => (inl e, l)
  | (inr a, l) => let '(r, l') := f a in (r, l ++ l')
  end.

#[global] Instance M_ret : MRet M := @ret.
#[global] Instance M_bind : MBind M := λ A B f m, bind m f.

Definition outcome {A} (m : M A) : exn + A := fst m.
Definition trace {A} (m : M A) : list event := snd m.

Definition assert (c : bool) : M unit :=
  if c then ret tt else raise AssertionError.

(** [Y[i]] and [Y[i] = v] on a sequence of numbers or of floats. *)
Definition getitem {T} (Y : list T) (i : Z) : M T :=
  let j := (if i <? 0 then i + len Y else i)%Z in
  if (0 <=? j)%Z then
    match Y !! Z.to_nat j with
    | Some y => ret y
    | None => raise IndexError
    end
  else raise IndexError.

Definition setitem {T} (Y : list T) (i : Z) (v : T) : M (list T) :=
  let j := (if i <? 0 then i + len Y else i)%Z in
  if ((0 <=? j) && (j <? len Y))%Z
  then ret (<[Z.to_nat j := v]> Y)
  else raise IndexError.

Definition slice_to {T} (U : list T) (n : Z) : list T :=
  take (slice_bound (len U) n) U.
Definition slice_from {T} (U : list T) (n : Z) : list T :=
  drop (slice_bound (len U) n) U.

(** The builtins [min] and [max]: the first item is kept until a later
    item compares below (above) the one kept. *)
Definition min (U : list float) : M float :=
  match U with
  | [] => raise ValueError
  | u :: U' => ret (foldl (λ m x, if lt x m then x else m) u U')
  end.

Definition max (U : list float) : M float :=
  match U with
  | [] => raise ValueError
  | u :: U' => ret (foldl (λ m x, if gt x m then x else m) u U')
  end.

Fixpoint for_each {T S} (xs : list T) (body : T → S → M S) (s : S) : M S :=
  match xs with
  | [] => ret s
  | x :: xs' => s' ← body x s; for_each xs' body s'
  end.

(** [np.zeros(n)] and [np.ravel(rows)] *)
Definition zeros (n : Z) : M (list float) :=
  if (n <? 0)%Z then raise ValueError
  else ret (replicate (Z.to_nat n) (num 0)).

Definition ravel (rows : list (list float)) : list float := mjoin rows.

(** The pluggable functions receive and return floats. *)
Definition cyto_fn : Type := params → list float → float.
Definition vel_fn : Type := params → Q → Q → float.

Record kvals : Type := {
  par :> params;
  A_cyto : cyto_fn;
  P_cyto : cyto_fn;
  v_func : vel_fn
}.

Local Open Scope float_scope.

(** The functions of the core, on floats. *)
Definition disc_diffusion_term (kv : kvals) (Y : list float) (x_i : Z)
  : M float :=
  if (x_i =? 0)%Z then
    a ← getitem Y 1; b ← getitem Y 0; c ← getitem Y 1;
    mret ((a - 2 * b + c) / deltax kv ^ 2)
  else if (x_i =? Nx kv - 1)%Z then
    a ← getitem Y (Nx kv - 2); b ← getitem Y (Nx kv - 1);
    c ← getitem Y (Nx kv - 2);
    mret ((a - 2 * b + c) / deltax kv ^ 2)
  else
    a ← getitem Y (x_i + 1); b ← getitem Y x_i; c ← getitem Y (x_i - 1);
    mret ((a - 2 * b + c) / deltax kv ^ 2).

Definition disc_spatial_derivative (kv : kvals) (func : Z → M float)
    (x_i : Z) : M float :=
  f1 ← func (x_i + 1)%Z; f0 ← func x_i;
  mret ((f1 - f0) / deltax kv).

Definition R_A (kv : kvals) (A P : list float) (A_cyto_r : float) (t : Q)
    (x_i : Z) : M float :=
  a ← getitem A x_i; p ← getitem P x_i; a' ← getitem A x_i;
  mret (k_onA kv * A_cyto_r - k_offA kv * a - k_AP kv * (p ^ alpha kv) * a').

Definition R_P (kv : kvals) (A P : list float) (P_cyto_r : float) (t : Q)
    (x_i : Z) : M float :=
  p ← getitem P x_i; a ← getitem A x_i; p' ← getitem P x_i;
  mret (k_onP kv * P_cyto_r - k_offP kv * p - k_PA kv * (a ^ beta kv) * p').

Definition call_A_cyto (kv : kvals) (A : list float) : M float :=
  _ ← emit (EvA_cyto A); mret (A_cyto kv kv A).

Definition call_P_cyto (kv : kvals) (P : list float) : M float :=
  _ ← emit (EvP_cyto P); mret (P_cyto kv kv P).

Definition call_v_func (kv : kvals) (x t : Q) : M float :=
  _ ← emit (EvV_func x t); mret (v_func kv kv x t).

Definition plot_failure (U : list float) (t : Q) (kv : kvals) : M unit :=
  _ ← for_each (X kv) (λ x (_ : unit), _ ← call_v_func kv x t; mret tt) tt;
  emit (EvFailurePlot U t).

Definition flux (kv : kvals) (Y : list float) (t : Q) (x_ii : Z) : M float :=
  x ← getitem (X kv) x_ii; v ← call_v_func kv x t; y ← getitem Y x_ii;
  mret (v * y).

Definition right_boundary_flux (kv : kvals) (Y : list float) (t : Q)
  : M float :=
  x2 ← getitem (X kv) (Nx kv - 2); v2 ← call_v_func kv x2 t;
  y2 ← getitem Y (Nx kv - 2);
  x1 ← getitem (X kv) (Nx kv - 1); v1 ← call_v_func kv x1 t;
  y1 ← getitem Y (Nx kv - 1);
  mret ((- v2 * y2 - v1 * y1) / deltax kv).

Definition odefunc (t : Q) (U : list float) (kv : kvals) : M (list float) :=
  _ ← assert (len U =? 2 * Nx kv)%Z;
  lo ← min U;
  diverged ← (if lt lo (-100)%Q then mret true
              else hi ← max U; mret (gt hi 100%Q));
  if diverged : bool then
    _ ← emit EvPrint;
    _ ← plot_failure U t kv;
    raise AssertionError
  else
    let A := slice_to U (Nx kv) in
    let P := slice_from U (Nx kv) in
    dudt_A ← zeros (Nx kv);
    dudt_P ← zeros (Nx kv);
    A_cyto_r ← call_A_cyto kv A;
    P_cyto_r ← call_P_cyto kv P;
    dA ← disc_diffusion_term kv A (Nx kv - 1);
    fA ← right_boundary_flux kv A t;
    rA ← R_A kv A P A_cyto_r t (Nx kv - 1);
    dudt_A ← setitem dudt_A (Nx kv - 1) (D_A kv * dA - fA + rA);
    dP ← disc_diffusion_term kv P (Nx kv - 1);
    fP ← right_boundary_flux kv P t;
    rP ← R_P kv A P P_cyto_r t (Nx kv - 1);
    dudt_P ← setitem dudt_P (Nx kv - 1) (D_P kv * dP - fP + rP);
    '(dudt_A, dudt_P) ←
      for_each (Np.arange 0 (Nx kv - 1))
        (λ x_i '(dudt_A, dudt_P),
           dA ← disc_diffusion_term kv A x_i;
           fA ← disc_spatial_derivative kv (flux kv A t) x_i;
           rA ← R_A kv A P A_cyto_r t x_i;
           dudt_A ← setitem dudt_A x_i (D_A kv * dA - fA + rA);
           dP ← disc_diffusion_term kv P x_i;
           fP ← disc_spatial_derivative kv (flux kv P t) x_i;
           rP ← R_P kv A P P_cyto_r t x_i;
           dudt_P ← setitem dudt_P x_i (D_P kv * dP - fP + rP);
           mret (dudt_A, dudt_P))
        (dudt_A, dudt_P);
    mret (ravel [dudt_A; dudt_P]).

End Nan.

Coercion Nan.num : Q >-> Nan.float.
Coercion Nan.par : Nan.kvals >-> params.

(** ** Mappings and the store

    The driver works on dictionaries: the global [DEFAULT_PARAMETERS], the
    caller's [args], the merged [params] and the derived [kvals].  A
    dictionary is an object in a store; a variable holds its location. *)

Inductive value : Type :=
| VInt (z : Z)
| VFloat (q : Q)
| VStr (s : string)
| VArray (a : list Q)
| VCyto (f : cyto_fn)
| VVel (f : vel_fn).

Abbreviation dict := (gmap string value).
Abbreviation loc := positive.
Abbreviation store := (gmap loc dict).

(** [d[k]] *)
Definition subscript (d : dict) (k : string) : exn + value :=
  match d !! k with Some v => inr v | None => inl KeyError end.

(** Reading a value at the type the program uses it at. *)
Definition as_float (v : value) : exn + Q :=
  match v with
  | VInt z => inr (inject_Z z)
  | VFloat q => inr q
  | _ => inl TypeError
  end.

Definition as_int (v : value) : exn + Z :=
  match v with VInt z => inr z | _ => inl TypeError end.

Definition as_str (v : value) : exn + string :=
  match v with VStr s => inr s | _ => inl TypeError end.

Definition as_array (v : value) : exn + list Q :=
  match v with VArray a => inr a | _ => inl TypeError end.

Definition as_cyto (v : value) : exn + cyto_fn :=
  match v with VCyto f => inr f | _ => inl TypeError end.

Definition as_vel (v : value) : exn + vel_fn :=
  match v with VVel f => inr f | _ => inl TypeError end.

Definition entry {A} (d : dict) (k : string) (as_ : value → exn + A)
  : exn + A :=
  v ← subscript d k; as_ v.

(** The driver's monad: exceptions over a store. *)
Definition D (A : Type) : Type := store → (exn + A) * store.

#[global] Instance D_ret : MRet D := λ A a σ, (inr a, σ).
#[global] Instance D_bind : MBind D := λ A B f m σ,
  match m σ with
  | (inl e, σ') => (inl e, σ')
  | (inr a, σ') => f a σ'
  end.

Definition lift {A} (r : exn + A) : D A := λ σ, (r, σ).

(** The mapping a variable refers to. *)
Definition load (l : loc) : D dict := λ σ, (inr (default ∅ (σ !! l)), σ).

(** A dictionary display [{...}] creates a new object. *)
Definition alloc (d : dict) : D loc := λ σ,
  let l := fresh (dom σ) in (inr l, <[l := d]> σ).

(** [l[k] = v] updates the object in place. *)
Definition assign (l : loc) (k : string) (v : value) : D unit := λ σ,
  (inr tt, alter (insert k v) l σ).

(** [int(x)]: truncation towards zero. *)
Definition int (x : Q) : Z := (Qnum x ÷ Z.pos (Qden x))%Z.

(** The typed reading of the mapping [kvals] by the core. *)
Definition read_params (d : dict) : exn + params :=
  label ← entry d "label" as_str;
  points_per_second ← entry d "points_per_second" as_float;
  Nx ← entry d "Nx" as_int;
  L ← entry d "L" as_float;
  x0 ← entry d "x0" as_float;
  xL ← entry d "xL" as_float;
  t0 ← entry d "t0" as_float;
  tL ← entry d "tL" as_float;
  psi ← entry d "psi" as_float;
  D_A ← entry d "D_A" as_float;
  D_P ← entry d "D_P" as_float;
  k_onA ← entry d "k_onA" as_float;
  k_onP ← entry d "k_onP" as_float;
  k_offA ← entry d "k_offA" as_float;
  k_offP ← entry d "k_offP" as_float;
  k_AP ← entry d "k_AP" as_float;
  k_PA ← entry d "k_PA" as_float;
  rho_A ← entry d "rho_A" as_float;
  rho_P ← entry d "rho_P" as_float;
  alpha ← entry d "alpha" as_int;
  beta ← entry d "beta" as_int;
  X ← entry d "X" as_array;
  deltax ← entry d "deltax" as_float;
  mret {| label := label; points_per_second := points_per_second;
          Nx := Nx; L := L; x0 := x0; xL := xL; t0 := t0; tL := tL;
          psi := psi; D_A := D_A; D_P := D_P; k_onA := k_onA;
          k_onP := k_onP; k_offA := k_offA; k_offP := k_offP;
          k_AP := k_AP; k_PA := k_PA; rho_A := rho_A; rho_P := rho_P;
          alpha := alpha; beta := beta; X := X; deltax := deltax |}.

Definition read_kvals (d : dict) : exn + kvals :=
  p ← read_params d;
  A_cyto ← entry d "A_cyto" as_cyto;
  P_cyto ← entry d "P_cyto" as_cyto;
  v_func ← entry d "v_func" as_vel;
  mret {| par := p; A_cyto := A_cyto; P_cyto := P_cyto; v_func := v_func |}.

(** [odefunc] as the integrator calls it, on the mapping. *)
Definition odefunc_on (d : dict) (t : Q) (U : list Q) : M (list Q) :=
  match read_kvals d with
  | inl e => raise e
  | inr kv => odefunc t U kv
  end.

(** ** The driver *)

(** What [scipy.integrate.solve_ivp] returns: the time points and, for each
    of them, the state. *)
Record OdeResult : Type := {
  sol_t : list Q;
  sol_y : list (list Q)
}.

(** The integrator: right-hand side, time span, initial state, output
    times. *)
Definition integrator : Type :=
  (Q → list Q → M (list Q)) → Q * Q → list Q → list Q → exn + OdeResult.

Section Driver.

Variable simpson : list Q → list Q → Q.
Variable solve_ivp : integrator.

(** The location of the global [DEFAULT_PARAMETERS] and its content when the
    module is loaded. *)
Definition DEFAULT_PARAMETERS : loc := 1%positive.

Definition DEFAULT_PARAMETERS_init : dict :=
  list_to_map [
    ("label", VStr "goehring");
    ("points_per_second", VInt 2);
    ("Nx", VInt 100);
    ("L", VFloat 134.6);
    ("x0", VInt 0);
    ("xL", VFloat 67.3);
    ("t0", VInt 0);
    ("tL", VInt 5000);
    ("psi", VFloat 0.174);
    ("D_A", VFloat 0.28);
    ("D_P", VFloat 0.15);
    ("k_onA", VFloat (8.58 * 10 ^ (-3)));
    ("k_onP", VFloat (4.74 * 10 ^ (-2)));
    ("k_offA", VFloat (5.4 * 10 ^ (-3)));
    ("k_offP", VFloat (7.3 * 10 ^ (-3)));
    ("k_AP", VFloat 0.190);
    ("k_PA", VFloat 2.0);
    ("rho_A", VFloat 1.56);
    ("rho_P", VFloat 1.0);
    ("alpha", VInt 1);
    ("beta", VInt 2);
    ("A_cyto", VCyto (default_A_cyto simpson));
    ("P_cyto", VCyto (default_P_cyto simpson));
    ("v_func", VVel default_v_func)
  ].

(** [run_model] up to the call of the integrator: the merge, the grid, the
    derived entries.  It returns the location of [kvals]. *)
Definition run_model_setup (args : loc) : D loc :=
  defaults ← load DEFAULT_PARAMETERS;
  overrides ← load args;
  params ← alloc (overrides ∪ defaults);
  p ← load params;
  x0 ← lift (entry p "x0" as_float);
  xL ← lift (entry p "xL" as_float);
  Nx ← lift (entry p "Nx" as_int);
  X ← lift (outcome (Np.linspace x0 xL Nx));
  X1 ← lift (outcome (getitem X 1));
  X0 ← lift (outcome (getitem X 0));
  let deltax := Qabs (X1 - X0) in
  kvals ← alloc (<["deltax" := VFloat deltax]> (<["X" := VArray X]> p));
  kv ← load kvals;
  t_eval ←
    match kv !! "t_eval" with
    | Some v => mret v
    | None =>
        t0 ← lift (entry kv "t0" as_float);
        tL ← lift (entry kv "tL" as_float);
        pps ← lift (entry kv "points_per_second" as_float);
        ts ← lift (outcome (Np.linspace t0 tL (int (pps * Qabs (tL - t0)))));
        mret (VArray ts)
    end;
  _ ← assign kvals "t_eval" t_eval;
  kv ← load kvals;
  initial_condition ←
    match kv !! "initial_condition" with
    | Some v => mret v
    | None =>
        Nx ← lift (entry kv "Nx" as_int);
        mret (VArray (Np.ravel_F ((λ x_i, [0.5; 0.0]) <$> Np.arange 0 Nx)))
    end;
  _ ← assign kvals "initial_condition" initial_condition;
  mret kvals.

Definition run_model (args : loc) : D (OdeResult * loc) :=
  kvals ← run_model_setup args;
  kv ← load kvals;
  t0 ← lift (entry kv "t0" as_float);
  tL ← lift (entry kv "tL" as_float);
  y0 ← lift (entry kv "initial_condition" as_array);
  t_eval ← lift (entry kv "t_eval" as_array);
  sol ← lift (solve_ivp (odefunc_on kv) (t0, tL) y0 t_eval);
  mret (sol, kvals).

End Driver.

(** ** Instances of the library routines

    A composite Simpson rule for irregularly spaced samples: parabolic
    panels over pairs of intervals, the trapezoid for two samples, and a
    three-point correction for a last odd interval. *)

Definition simpson_panel (y0 y1 y2 h0 h1 : Q) : Q :=
  (h0 + h1) / 6
  * (y0 * (2 - h1 / h0) + y1 * ((h0 + h1) * (h0 + h1) / (h0 * h1))
     + y2 * (2 - h0 / h1)).

Definition simpson_last (y0 y1 y2 h0 h1 : Q) : Q :=
  (2 * h1 ^ 2 + 3 * h0 * h1) / (6 * (h1 + h0)) * y2
  + (h1 ^ 2 + 3 * h0 * h1) / (6 * h0) * y1
  - h1 ^ 3 / (6 * h0 * (h0 + h1)) * y0.

Fixpoint simpson_rule (ys xs : list Q) : Q :=
  match ys, xs with
  | [y0; y1], [x0; x1] => (x1 - x0) * (y0 + y1) / 2
  | [y0; y1; y2; y3], [x0; x1; x2; x3] =>
      simpson_panel y0 y1 y2 (x1 - x0) (x2 - x1)
      + simpson_last y1 y2 y3 (x2 - x1) (x3 - x2)
  | y0 :: y1 :: ((y2 :: _) as ys'), x0 :: x1 :: ((x2 :: _) as xs') =>
      simpson_panel y0 y1 y2 (x1 - x0) (x2 - x1) + simpson_rule ys' xs'
  | _, _ => 0
  end.

(** An integrator that evaluates the right-hand side at the initial state
    and reports that state as the only sample. *)
Definition first_step : integrator := λ f span y0 t_eval,
  match outcome (f (fst span) y0) with
  | inl e => inl e
  | inr _ => inr {| sol_t := [fst span]; sol_y := [y0] |}
  end.

(** ** Small configurations to evaluate the model on *)

(** Three nodes one apart, unit diffusion, no reaction. *)
Definition three_nodes : params := {|
  label := "three nodes"; points_per_second := 2; Nx := 3; L := 2;
  x0 := 0; xL := 2; t0 := 0; tL := 1; psi := 0.174; D_A := 1; D_P := 1;
  k_onA := 0; k_onP := 0; k_offA := 0; k_offP := 0; k_AP := 0; k_PA := 0;
  rho_A := 1.56; rho_P := 1; alpha := 1; beta := 2;
  X := [0; 1; 2]; deltax := 1 |}.

(** Pure diffusion on three nodes: no reaction, no velocity. *)
Definition pure_diffusion : kvals := {|
  par := three_nodes;
  A_cyto := default_A_cyto simpson_rule;
  P_cyto := default_P_cyto simpson_rule;
  v_func := λ _ _ _, 0 |}.

(** The default kinetics and velocity on three nodes. *)
Definition three_nodes_default : kvals := {|
  par := {| label := "three nodes"; points_per_second := 2; Nx := 3;
            L := 2; x0 := 0; xL := 2; t0 := 0; tL := 1; psi := 0.174;
            D_A := 0.28; D_P := 0.15; k_onA := 8.58 * 10 ^ (-3);
            k_onP := 4.74 * 10 ^ (-2); k_offA := 5.4 * 10 ^ (-3);
            k_offP := 7.3 * 10 ^ (-3); k_AP := 0.190; k_PA := 2.0;
            rho_A := 1.56; rho_P := 1.0; alpha := 1; beta := 2;
            X := [0; 1; 2]; deltax := 1 |};
  A_cyto := default_A_cyto simpson_rule;
  P_cyto := default_P_cyto simpson_rule;
  v_func := default_v_func |}.

(** The default kinetics and velocity on a single node. *)
Definition one_node : kvals := {|
  par := {| label := "one node"; points_per_second := 2; Nx := 1;
            L := 2; x0 := 0; xL := 2; t0 := 0; tL := 1; psi := 0.174;
            D_A := 0.28; D_P := 0.15; k_onA := 8.58 * 10 ^ (-3);
            k_onP := 4.74 * 10 ^ (-2); k_offA := 5.4 * 10 ^ (-3);
            k_offP := 7.3 * 10 ^ (-3); k_AP := 0.190; k_PA := 2.0;
            rho_A := 1.56; rho_P := 1.0; alpha := 1; beta := 2;
            X := [0]; deltax := 1 |};
  A_cyto := default_A_cyto simpson_rule;
  P_cyto := default_P_cyto simpson_rule;
  v_func := default_v_func |}.

(** Three nodes covering half of the length [L], as the default grid does. *)
Definition half_cell : params := {|
  label := "half cell"; points_per_second := 2; Nx := 3; L := 4;
  x0 := 0; xL := 2; t0 := 0; tL := 1; psi := 0.174; D_A := 0.28;
  D_P := 0.15; k_onA := 0; k_onP := 0; k_offA := 0; k_offP := 0;
  k_AP := 0; k_PA := 0; rho_A := 1.56; rho_P := 1; alpha := 1; beta := 2;
  X := [0; 1; 2]; deltax := 1 |}.

(** A store holding the defaults and one caller mapping, at location 2. *)
Definition module_store (args : dict) : store :=
  <[2%positive := args]>
    {[ DEFAULT_PARAMETERS := DEFAULT_PARAMETERS_init simpson_rule ]}.

(** Overrides with two nodes and both intervals reversed. *)
Definition reversed_bounds : dict :=
  list_to_map [("Nx", VInt 2); ("xL", VFloat (-1)); ("tL", VInt (-1))].

(** Overrides that only shorten the run to four nodes and one second. *)
Definition four_nodes : dict :=
  list_to_map [("Nx", VInt 4); ("tL", VInt 1)].

(** ** Notions used to state the properties *)

(** [Y[i]] for a subscript known to be in range. *)
Definition item (Y : list Q) (i : Z) : Q := nth (Z.to_nat i) Y 0.

(** The array [Y] of [n] nodes continued by reflection about its two end
    nodes: node [-1] is node [1], node [n] is node [n-2]. *)
Definition reflected (n : Z) (Y : list Q) (i : Z) : Q :=
  if (i <? 0)%Z then item Y (- i)
  else if (n <=? i)%Z then item Y (2 * (n - 1) - i)
  else item Y i.

(** The three-point second difference of a sequence of nodes. *)
Definition second_difference (h : Q) (y : Z → Q) (i : Z) : Q :=
  (y (i + 1)%Z - 2 * y i + y (i - 1)%Z) / h ^ 2.

(** The node formulas of the right-hand side, for a configuration [kv] at
    time [t]. *)
Section NodeFormulas.

Variables (kv : kvals) (t : Q).

(** [v(X[i], t)] *)
Definition velocity_at (i : Z) : Q := v_func kv kv (item (X kv) i) t.

(** The flux [f(i) = v(X[i], t) * Y[i]]. *)
Definition flux_at (Y : list Q) (i : Z) : Q := velocity_at i * item Y i.

Definition diffusion_at (Y : list Q) (i : Z) : Q :=
  second_difference (deltax kv) (reflected (Nx kv) Y) i.

(** The advection term the right-hand side subtracts at node [i]. *)
Definition advection_at (Y : list Q) (i : Z) : Q :=
  if (i =? Nx kv - 1)%Z
  then (- velocity_at (Nx kv - 2) * item Y (Nx kv - 2)
        - velocity_at (Nx kv - 1) * item Y (Nx kv - 1)) / deltax kv
  else (flux_at Y (i + 1) - flux_at Y i) / deltax kv.

Definition reaction_A_at (A P : list Q) (A_cyto_r : Q) (i : Z) : Q :=
  k_onA kv * A_cyto_r - k_offA kv * item A i
  - k_AP kv * (item P i ^ alpha kv) * item A i.

Definition reaction_P_at (A P : list Q) (P_cyto_r : Q) (i : Z) : Q :=
  k_onP kv * P_cyto_r - k_offP kv * item P i
  - k_PA kv * (item A i ^ beta kv) * item P i.

Definition dudt_A_at (A P : list Q) (i : Z) : Q :=
  D_A kv * diffusion_at A i - advection_at A i
  + reaction_A_at A P (A_cyto kv kv A) i.

Definition dudt_P_at (A P : list Q) (i : Z) : Q :=
  D_P kv * diffusion_at P i - advection_at P i
  + reaction_P_at A P (P_cyto kv kv P) i.

End NodeFormulas.

(** A state vector within the bounds the right-hand side accepts. *)
Definition in_range (U : list Q) : Prop := ∀ u, u ∈ U → -100 <= u ∧ u <= 100.

(** Whether some component lies outside [[-100, 100]]. *)
Definition diverges (U : list Q) : bool :=
  existsb (λ u, Qltb u (-100) || Qltb 100 u) U.

Definition qsum (l : list Q) : Q := foldr Qplus 0 l.

(** How often a trace calls each cytoplasmic capability. *)
Definition count_A_cyto (l : list event) : nat :=
  length (List.filter (λ ev, match ev with EvA_cyto _ => true | _ => false end) l).

Definition count_P_cyto (l : list event) : nat :=
  length (List.filter (λ ev, match ev with EvP_cyto _ => true | _ => false end) l).

(** No reaction and no advection. *)
Definition zero_rates (kv : kvals) : Prop :=
  k_onA kv == 0 ∧ k_onP kv == 0 ∧ k_offA kv == 0 ∧ k_offP kv == 0
  ∧ k_AP kv == 0 ∧ k_PA kv == 0.

Definition zero_velocity (kv : kvals) : Prop :=
  ∀ x t, v_func kv kv x t == 0.

(** The discrete masses of an array of [n] nodes: the plain sum, and the
    trapezoid sum in which the two end nodes count for one half. *)
Definition plain_mass (Y : list Q) : Q := qsum Y.

Definition node_weight (n i : Z) : Q :=
  if ((i =? 0) || (i =? n - 1))%Z then 1 / 2 else 1.

Definition trapezoid_mass (n : Z) (Y : list Q) : Q :=
  qsum ((λ i, node_weight n i * item Y i) <$> seqZ 0 n).

(** Node positions in strictly increasing order. *)
Fixpoint ascending (xs : list Q) : Prop :=
  match xs with
  | x :: ((y :: _) as xs') => x < y ∧ ascending xs'
  | _ => True
  end.

(** The configuration [{**DEFAULT_PARAMETERS, **args}] in a store. *)
Definition merged (σ : store) (args : loc) : dict :=
  default ∅ (σ !! args) ∪ default ∅ (σ !! DEFAULT_PARAMETERS).

(** A merged configuration whose entries have the types the driver uses
    them at: bounds, node count, sampling rate and, when supplied, output
    times and initial condition. *)
Definition typed_config (m : dict) (a b : Q) (n : Z) (t0v tLv pps : Q)
  : Prop :=
  entry m "x0" as_float = inr a
  ∧ entry m "xL" as_float = inr b
  ∧ entry m "Nx" as_int = inr n
  ∧ entry m "t0" as_float = inr t0v
  ∧ entry m "tL" as_float = inr tLv
  ∧ entry m "points_per_second" as_float = inr pps
  ∧ (∀ v, m !! "t_eval" = Some v → ∃ ts, v = VArray ts)
  ∧ (∀ v, m !! "initial_condition" = Some v → ∃ y0, v = VArray y0).

(** A run that raises nothing, returns a value satisfying [I] and makes [n]
    calls. *)
Definition costs {A} (m : M A) (I : A → Prop) (n : nat) : Prop :=
  ∃ a l, m = (inr a, l) ∧ I a ∧ length l = n.

(** A run that raises nothing and calls nothing but the velocity field. *)
Definition is_v_call (ev : event) : Prop := ∃ x t, ev = EvV_func x t.

Definition yields {A} (m : M A) (a : A) : Prop :=
  ∃ l, m = (inr a, l) ∧ Forall is_v_call l.

(** The numbers of a sequence of floats, when none of them is NaN. *)
Definition numbers (Y : list Nan.float) : option (list Q) :=
  mapM (λ y, match y with Nan.num q => Some q | Nan.nan => None end) Y.

(** A configuration written for numbers, read on floats: a capability that
    is handed a NaN answers NaN. *)
Definition on_floats (kv : kvals) : Nan.kvals := {|
  Nan.par := kv;
  Nan.A_cyto := λ p A,
    match numbers A with
    | Some qs => Nan.num (A_cyto kv p qs)
    | None => Nan.nan
    end;
  Nan.P_cyto := λ p P,
    match numbers P with
    | Some qs => Nan.num (P_cyto kv p qs)
    | None => Nan.nan
    end;
  Nan.v_func := λ p x t, Nan.num (v_func kv p x t) |}.

(** Whether some component is a number outside [[-100, 100]]. *)
Definition number_diverges (U : list Nan.float) : bool :=
  existsb (λ u, Nan.lt u (Nan.num (-100)) || Nan.gt u (Nan.num 100)) U.

(** What the test [min(U) < -100 or max(U) > 100] answers: behind a NaN in
    first position, no; behind a number, whether some number of the vector
    is out of bounds. *)
Definition test_fires (U : list Nan.float) : bool :=
  match U with
  | Nan.num _ :: _ => number_diverges U
  | _ => false
  end.

(** A run on floats that raises nothing and returns a value satisfying
    [I]. *)
Definition returns {A} (m : Nan.M A) (I : A → Prop) : Prop :=
  ∃ a l, m = (inr a, l) ∧ I a.

(** A run on numbers read as a run on floats: the same outcome, the same
    calls. *)
Definition float_event (ev : event) : Nan.event :=
  match ev with
  | EvPrint => Nan.EvPrint
  | EvFailurePlot U t => Nan.EvFailurePlot (Nan.num <$> U) t
  | EvA_cyto A => Nan.EvA_cyto (Nan.num <$> A)
  | EvP_cyto P => Nan.EvP_cyto (Nan.num <$> P)
  | EvV_func x t => Nan.EvV_func x t
  end.

Definition float_run {A B} (h : A → B) (m : M A) : Nan.M B :=
  (match fst m with inl e => inl e | inr a => inr (h a) end,
   float_event <$> snd m).

(** ** The monad *)

Lemma yields_ret {A} (a : A) : yields (mret a) a.
Proof. exists []. split; [reflexivity | constructor]. Qed.

Lemma yields_bind {A B} (m : M A) (f : A → M B) a b :
  yields m a → yields (f a) b → yields (m ≫= f) b.
Proof.
  intros (l1 & -> & H1) (l2 & Hf & H2).
  exists (l1 ++ l2). split.
  - unfold mbind, M_bind, bind. rewrite Hf. reflexivity.
  - apply Forall_app; auto.
Qed.

Lemma yields_outcome {A} (m : M A) a : yields m a → outcome m = inr a.
Proof. intros (l & -> & _). reflexivity. Qed.

Lemma yields_inj {A} (m : M A) a b : yields m a → yields m b → a = b.
Proof. intros (l & -> & _) (l' & [= -> _] & _). reflexivity. Qed.

Lemma getitem_in_range (Y : list Q) (i : Z) :
  (0 ≤ i < len Y)%Z → getitem Y i = mret (item Y i).
Proof.
  intros Hi. unfold getitem.
  replace (i <? 0)%Z with false by lia.
  replace ((0 <=? i) && (i <? len Y))%Z with true by lia.
  reflexivity.
Qed.

Lemma yields_getitem (Y : list Q) (i : Z) :
  (0 ≤ i < len Y)%Z → yields (getitem Y i) (item Y i).
Proof. intros Hi. rewrite getitem_in_range by done. apply yields_ret. Qed.

Lemma yields_setitem (Y : list Q) (i : Z) (v : Q) :
  (0 ≤ i < len Y)%Z → yields (setitem Y i v) (<[Z.to_nat i := v]> Y).
Proof.
  intros Hi. unfold setitem.
  replace (i <? 0)%Z with false by lia.
  replace ((0 <=? i) && (i <? len Y))%Z with true by lia.
  apply (yields_ret (<[Z.to_nat i := v]> Y)).
Qed.

Lemma yields_call_v_func (kv : kvals) (x t : Q) :
  yields (call_v_func kv x t) (v_func kv kv x t).
Proof.
  exists [EvV_func x t]. split; [reflexivity|].
  repeat constructor. by exists x, t.
Qed.

Ltac yield_step :=
  lazymatch goal with
  | |- yields (mret _) _ => apply yields_ret
  | |- yields (getitem _ _) _ => apply yields_getitem; unfold len in *; lia
  | |- yields (setitem _ _ _) _ => apply yields_setitem; unfold len in *; lia
  | |- yields (call_v_func _ _ _) _ => apply yields_call_v_func
  | |- yields (_ ≫= _) _ => eapply yields_bind
  end.

(** ** The diffusion term *)

(** Settle the comparisons between node numbers, then match the nodes of two
    formulas. *)
Ltac decide_nodes :=
  repeat match goal with
    | |- context [(?a <? ?b)%Z] => destruct (Z.ltb_spec a b); try lia
    | |- context [(?a <=? ?b)%Z] => destruct (Z.leb_spec a b); try lia
    end.

Ltac same_nodes :=
  repeat first [reflexivity | lia | f_equal].

Lemma disc_diffusion_term_left (kv : kvals) (Y : list Q) :
  (2 ≤ len Y)%Z →
  disc_diffusion_term kv Y 0
  = mret ((item Y 1 - 2 * item Y 0 + item Y 1) / deltax kv ^ 2).
Proof.
  intros HY. unfold disc_diffusion_term. simpl.
  rewrite !getitem_in_range by lia. reflexivity.
Qed.

Lemma disc_diffusion_term_right (kv : kvals) (Y : list Q) :
  len Y = Nx kv → (2 ≤ Nx kv)%Z →
  disc_diffusion_term kv Y (Nx kv - 1)
  = mret ((item Y (Nx kv - 2) - 2 * item Y (Nx kv - 1) + item Y (Nx kv - 2))
          / deltax kv ^ 2).
Proof.
  intros HY HN. unfold disc_diffusion_term.
  replace (Nx kv - 1 =? 0)%Z with false by lia.
  rewrite Z.eqb_refl.
  rewrite !getitem_in_range by lia. reflexivity.
Qed.

Lemma disc_diffusion_term_interior (kv : kvals) (Y : list Q) (i : Z) :
  len Y = Nx kv → (1 ≤ i ≤ Nx kv - 2)%Z →
  disc_diffusion_term kv Y i
  = mret ((item Y (i + 1) - 2 * item Y i + item Y (i - 1)) / deltax kv ^ 2).
Proof.
  intros HY Hi. unfold disc_diffusion_term.
  replace (i =? 0)%Z with false by lia.
  replace (i =? Nx kv - 1)%Z with false by lia.
  rewrite !getitem_in_range by lia. reflexivity.
Qed.

(** C2.  On an array of [Nx >= 3] nodes with spacing [h = deltax > 0],
    [disc_diffusion_term] returns [(Y[i+1] - 2 Y[i] + Y[i-1]) / h^2] at
    every interior node, [(Y[1] - 2 Y[0] + Y[1]) / h^2] at node [0] and
    [(Y[Nx-2] - 2 Y[Nx-1] + Y[Nx-2]) / h^2] at node [Nx-1]; at every node
    this is the interior formula applied to the array continued by
    reflection ([Y[-1]] read as [Y[1]], [Y[Nx]] as [Y[Nx-2]]). *)
Theorem disc_diffusion_term_reflective (kv : kvals) (Y : list Q) :
  len Y = Nx kv → (3 ≤ Nx kv)%Z → 0 < deltax kv →
  let h := deltax kv in
  let n := Nx kv in
  (∀ i, (1 ≤ i ≤ n - 2)%Z →
     disc_diffusion_term kv Y i
     = mret ((item Y (i + 1) - 2 * item Y i + item Y (i - 1)) / h ^ 2))
  ∧ disc_diffusion_term kv Y 0
    = mret ((item Y 1 - 2 * item Y 0 + item Y 1) / h ^ 2)
  ∧ disc_diffusion_term kv Y (n - 1)
    = mret ((item Y (n - 2) - 2 * item Y (n - 1) + item Y (n - 2)) / h ^ 2)
  ∧ (∀ i, (0 ≤ i ≤ n - 1)%Z →
       disc_diffusion_term kv Y i
       = mret (second_difference h (reflected n Y) i)).
Proof.
  intros HY HN Hh h n. subst h n.
  split; [|split; [|split]].
  - intros i Hi. by apply disc_diffusion_term_interior.
  - apply disc_diffusion_term_left. lia.
  - apply disc_diffusion_term_right; lia.
  - intros i Hi. unfold second_difference, reflected.
    destruct (decide (i = 0%Z)) as [->|Hi0];
      [rewrite disc_diffusion_term_left by lia
      |destruct (decide (i = Nx kv - 1)%Z) as [->|HiN];
         [rewrite disc_diffusion_term_right by lia
         |rewrite disc_diffusion_term_interior by lia]];
      decide_nodes; same_nodes.
Qed.

Lemma disc_diffusion_term_spec (kv : kvals) (Y : list Q) (i : Z) :
  len Y = Nx kv → (2 ≤ Nx kv)%Z → (0 ≤ i ≤ Nx kv - 1)%Z →
  disc_diffusion_term kv Y i = mret (diffusion_at kv Y i).
Proof.
  intros HY HN Hi. unfold diffusion_at, second_difference, reflected.
  destruct (decide (i = 0%Z)) as [->|Hi0];
    [rewrite disc_diffusion_term_left by lia
    |destruct (decide (i = Nx kv - 1)%Z) as [->|HiN];
       [rewrite disc_diffusion_term_right by lia
       |rewrite disc_diffusion_term_interior by lia]];
    decide_nodes; same_nodes.
Qed.

(** ** More on the monad *)

Lemma mret_bind {A B} (a : A) (f : A → M B) : mret a ≫= f = f a.
Proof.
  unfold mbind, M_bind, mret, M_ret, bind, ret. by destruct (f a).
Qed.

Lemma ret_bind {A B} (a : A) (f : A → M B) : ret a ≫= f = f a.
Proof. apply mret_bind. Qed.

Lemma bind_inr {A B} (a : A) (l : list event) (f : A → M B) :
  ((inr a, l) : M A) ≫= f = (outcome (f a), l ++ trace (f a)).
Proof. unfold mbind, M_bind, bind, outcome, trace. by destruct (f a). Qed.

Lemma bind_inl {A B} (e : exn) (l : list event) (f : A → M B) :
  ((inl e, l) : M A) ≫= f = (inl e, l).
Proof. reflexivity. Qed.

Lemma bind_mret {A} (m : M A) : m ≫= mret = m.
Proof.
  destruct m as [[e|a] l]; [reflexivity|].
  unfold mbind, M_bind, mret, M_ret, bind, ret. by rewrite app_nil_r.
Qed.

Lemma yields_bind_inv {A B} (m : M A) (f : A → M B) b :
  yields (m ≫= f) b → ∃ a, yields m a ∧ yields (f a) b.
Proof.
  destruct m as [[e|a] l]; intros (l' & Heq & Hl').
  - discriminate.
  - unfold mbind, M_bind, bind in Heq.
    destruct (f a) as [r l2] eqn:Hf. injection Heq as -> <-.
    apply Forall_app in Hl' as [H1 H2].
    exists a. split; [by exists l | by exists l2].
Qed.

Lemma yields_for_each_snoc {T S} (xs : list T) (x : T) (body : T → S → M S)
    (s s' s'' : S) :
  yields (for_each xs body s) s' → yields (body x s') s'' →
  yields (for_each (xs ++ [x]) body s) s''.
Proof.
  revert s. induction xs as [|y xs IH]; intros s Hxs Hx; simpl in *.
  - rewrite (yields_inj _ _ _ Hxs (yields_ret s)) in Hx.
    eapply yields_bind; [exact Hx | apply yields_ret].
  - apply yields_bind_inv in Hxs as (s1 & Hy & Hxs).
    eapply yields_bind; [exact Hy | by apply IH].
Qed.

(** A loop over the nodes [0 .. k-1] whose body assigns node [i] of two
    arrays fills their first [k] nodes. *)
Lemma yields_for_each_nodes (body : Z → list Q * list Q → M (list Q * list Q))
    (fA fP : Z → Q) (n : nat) (dA0 dP0 : list Q) :
  (∀ i dA dP, (i < n)%nat → length dA = length dA0 → length dP = length dP0 →
     yields (body (Z.of_nat i) (dA, dP))
       (<[i := fA (Z.of_nat i)]> dA, <[i := fP (Z.of_nat i)]> dP)) →
  ∀ k, (k ≤ n)%nat → (n ≤ length dA0)%nat → (n ≤ length dP0)%nat →
    yields (for_each (seqZ 0 (Z.of_nat k)) body (dA0, dP0))
      ((fA <$> seqZ 0 (Z.of_nat k)) ++ drop k dA0,
       (fP <$> seqZ 0 (Z.of_nat k)) ++ drop k dP0).
Proof.
  intros Hbody k. induction k as [|k IH]; intros Hk HA HP.
  - simpl. rewrite !drop_0. apply yields_ret.
  - rewrite seqZ_S. simpl.
    eapply yields_for_each_snoc; [apply IH; lia|].
    rewrite !fmap_app. simpl.
    destruct (lookup_lt_is_Some_2 dA0 k) as [a Ha]; [lia|].
    destruct (lookup_lt_is_Some_2 dP0 k) as [p Hp]; [lia|].
    rewrite (drop_S dA0 a k Ha), (drop_S dP0 p k Hp).
    assert (Hlen : ∀ f : Z → Q, length (f <$> seqZ 0 (Z.of_nat k)) = k).
    { intros f. rewrite length_fmap, length_seqZ. lia. }
    pose proof (Hbody k
      ((fA <$> seqZ 0 (Z.of_nat k)) ++ a :: drop (S k) dA0)
      ((fP <$> seqZ 0 (Z.of_nat k)) ++ p :: drop (S k) dP0)) as Hb.
    rewrite !insert_app_r_alt in Hb by (rewrite Hlen; lia).
    rewrite !Hlen, Nat.sub_diag in Hb. simpl in Hb.
    rewrite <- !(assoc_L (++)). simpl. apply Hb; [lia| |].
    + rewrite length_app, Hlen. simpl. rewrite length_drop. lia.
    + rewrite length_app, Hlen. simpl. rewrite length_drop. lia.
Qed.

(** ** The pieces of the right-hand side *)

Section RightHandSide.

Variables (kv : kvals) (t : Q).
Hypothesis HN : (2 ≤ Nx kv)%Z.
Hypothesis HX : len (X kv) = Nx kv.

Lemma yields_flux (Y : list Q) (i : Z) :
  len Y = Nx kv → (0 ≤ i ≤ Nx kv - 1)%Z →
  yields (flux kv Y t i) (flux_at kv t Y i).
Proof.
  intros HY Hi. unfold flux, flux_at, velocity_at.
  repeat (yield_step; [yield_step | cbv beta]). yield_step.
Qed.

Lemma yields_disc_spatial_derivative (Y : list Q) (i : Z) :
  len Y = Nx kv → (0 ≤ i ≤ Nx kv - 2)%Z →
  yields (disc_spatial_derivative kv (flux kv Y t) i) (advection_at kv t Y i).
Proof.
  intros HY Hi. unfold disc_spatial_derivative, advection_at.
  replace (i =? Nx kv - 1)%Z with false by lia.
  eapply yields_bind; [apply yields_flux; [done|lia]|].
  eapply yields_bind; [apply yields_flux; [done|lia]|].
  apply yields_ret.
Qed.

Lemma yields_right_boundary_flux (Y : list Q) :
  len Y = Nx kv →
  yields (right_boundary_flux kv Y t) (advection_at kv t Y (Nx kv - 1)).
Proof.
  intros HY. unfold right_boundary_flux, advection_at, velocity_at.
  rewrite Z.eqb_refl.
  repeat (yield_step; [yield_step | cbv beta]). yield_step.
Qed.

Lemma R_A_spec (A P : list Q) (a : Q) (i : Z) :
  len A = Nx kv → len P = Nx kv → (0 ≤ i ≤ Nx kv - 1)%Z →
  R_A kv A P a t i = mret (reaction_A_at kv A P a i).
Proof.
  intros HA HP Hi. unfold R_A. rewrite !getitem_in_range by lia.
  reflexivity.
Qed.

Lemma R_P_spec (A P : list Q) (p : Q) (i : Z) :
  len A = Nx kv → len P = Nx kv → (0 ≤ i ≤ Nx kv - 1)%Z →
  R_P kv A P p t i = mret (reaction_P_at kv A P p i).
Proof.
  intros HA HP Hi. unfold R_P. rewrite !getitem_in_range by lia.
  reflexivity.
Qed.

End RightHandSide.

(** ** The divergence check *)

Lemma Qltb_lt (x y : Q) : Qltb x y = true ↔ x < y.
Proof.
  unfold Qltb. rewrite Qlt_alt. destruct (x ?= y); intuition congruence.
Qed.

Lemma Qltb_ge (x y : Q) : Qltb x y = false ↔ y <= x.
Proof.
  rewrite <- not_true_iff_false, Qltb_lt. split.
  - apply Qnot_lt_le.
  - apply Qle_not_lt.
Qed.

Lemma foldl_min_spec (U : list Q) (u : Q) :
  let m := foldl (λ m x, if Qltb x m then x else m) u U in
  m ∈ u :: U ∧ ∀ x, x ∈ u :: U → m <= x.
Proof.
  revert u. induction U as [|y U IH]; intros u; simpl.
  - split; [left|]. intros x ->%list_elem_of_singleton. apply Qle_refl.
  - destruct (IH (if Qltb y u then y else u)) as [Hin Hle]. split.
    + apply elem_of_cons in Hin as [->|Hin].
      * destruct (Qltb y u); [right; left | left].
      * do 2 right. exact Hin.
    + assert (Hm : foldl (λ m x, if Qltb x m then x else m)
                     (if Qltb y u then y else u) U
                   <= (if Qltb y u then y else u)) by (apply Hle; left).
      intros x [->|[->|Hx]%elem_of_cons]%elem_of_cons.
      * eapply Qle_trans; [exact Hm|].
        destruct (Qltb y u) eqn:E; [|apply Qle_refl].
        apply Qlt_le_weak. by apply Qltb_lt.
      * eapply Qle_trans; [exact Hm|].
        destruct (Qltb y u) eqn:E; [apply Qle_refl|]. by apply Qltb_ge.
      * apply Hle. by right.
Qed.

Lemma foldl_max_spec (U : list Q) (u : Q) :
  let m := foldl (λ m x, if Qltb m x then x else m) u U in
  m ∈ u :: U ∧ ∀ x, x ∈ u :: U → x <= m.
Proof.
  revert u. induction U as [|y U IH]; intros u; simpl.
  - split; [left|]. intros x ->%list_elem_of_singleton. apply Qle_refl.
  - destruct (IH (if Qltb u y then y else u)) as [Hin Hle]. split.
    + apply elem_of_cons in Hin as [->|Hin].
      * destruct (Qltb u y); [right; left | left].
      * do 2 right. exact Hin.
    + assert (Hm : (if Qltb u y then y else u)
                   <= foldl (λ m x, if Qltb m x then x else m)
                        (if Qltb u y then y else u) U) by (apply Hle; left).
      intros x [->|[->|Hx]%elem_of_cons]%elem_of_cons.
      * eapply Qle_trans; [|exact Hm].
        destruct (Qltb u y) eqn:E; [|apply Qle_refl].
        apply Qlt_le_weak. by apply Qltb_lt.
      * eapply Qle_trans; [|exact Hm].
        destruct (Qltb u y) eqn:E; [apply Qle_refl|]. by apply Qltb_ge.
      * apply Hle. by right.
Qed.

Lemma diverges_true (U : list Q) :
  diverges U = true ↔ ∃ u, u ∈ U ∧ (u < -100 ∨ 100 < u).
Proof.
  unfold diverges. rewrite existsb_exists. split.
  - intros (u & Hu%list_elem_of_In & H). exists u. split; [done|].
    apply orb_true_iff in H as [H|H]; apply Qltb_lt in H; auto.
  - intros (u & Hu%list_elem_of_In & H). exists u. split; [done|].
    apply orb_true_iff. destruct H as [H|H]; apply Qltb_lt in H; auto.
Qed.

Lemma diverges_false (U : list Q) : diverges U = false ↔ in_range U.
Proof.
  rewrite <- not_true_iff_false, diverges_true. unfold in_range. split.
  - intros H u Hu. split.
    + apply Qnot_lt_le. intros Hlt. apply H. exists u. auto.
    + apply Qnot_lt_le. intros Hlt. apply H. exists u. auto.
  - intros H (u & Hu & [Hlt|Hlt]); destruct (H u Hu) as [H1 H2].
    + by apply Qle_not_lt in H1.
    + by apply Qle_not_lt in H2.
Qed.

(** The test [min(U) < -100 or max(U) > 100] on a non-empty vector. *)
Lemma divergence_test {B} (U : list Q) (K : bool → M B) :
  U ≠ [] →
  (lo ← Py.min U;
   diverged ← (if Qltb lo (-100) then mret true
               else hi ← Py.max U; mret (Qltb 100 hi));
   K diverged)
  = K (diverges U).
Proof.
  destruct U as [|u U]; [done|]. intros _.
  destruct (foldl_min_spec U u) as [Hlo_in Hlo].
  destruct (foldl_max_spec U u) as [Hhi_in Hhi].
  change (Py.min (u :: U))
    with (mret (M := M) (foldl (λ m x, if Qltb x m then x else m) u U)).
  change (Py.max (u :: U))
    with (mret (M := M) (foldl (λ m x, if Qltb m x then x else m) u U)).
  cbv zeta in *.
  set (lo := foldl (λ m x, if Qltb x m then x else m) u U) in *.
  set (hi := foldl (λ m x, if Qltb m x then x else m) u U) in *.
  rewrite mret_bind.
  assert (Hd : (if Qltb lo (-100) then true else Qltb 100 hi)
               = diverges (u :: U)).
  { destruct (diverges (u :: U)) eqn:E.
    - apply diverges_true in E as (x & Hx & [H|H]).
      + replace (Qltb lo (-100)) with true; [done|].
        symmetry. apply Qltb_lt. eapply Qle_lt_trans; [by apply Hlo|done].
      + destruct (Qltb lo (-100)); [done|].
        apply Qltb_lt. eapply Qlt_le_trans; [exact H|by apply Hhi].
    - apply diverges_false in E.
      destruct (E lo Hlo_in) as [H1 _]. destruct (E hi Hhi_in) as [_ H2].
      apply Qltb_ge in H1, H2. by rewrite H1, H2. }
  rewrite <- Hd.
  destruct (Qltb lo (-100)).
  - by rewrite mret_bind.
  - by rewrite !mret_bind.
Qed.

(** ** The right-hand side as a whole *)

Lemma slice_lengths (U : list Q) (n : Z) :
  len U = (2 * n)%Z → len (slice_to U n) = n ∧ len (slice_from U n) = n.
Proof.
  intros HU. unfold slice_to, slice_from, slice_bound, len in *.
  rewrite length_take, length_drop.
  replace (n <? 0)%Z with false by lia. lia.
Qed.

Lemma slices_app (U : list Q) (n : Z) : slice_to U n ++ slice_from U n = U.
Proof. apply take_drop. Qed.

(** On a vector within bounds the right-hand side calls each cytoplasmic
    capability once, then only the velocity field, and returns the node
    formulas of A followed by those of P. *)
Lemma odefunc_in_range (t : Q) (U : list Q) (kv : kvals) :
  len U = (2 * Nx kv)%Z → (2 ≤ Nx kv)%Z → len (X kv) = Nx kv →
  in_range U →
  let A := slice_to U (Nx kv) in
  let P := slice_from U (Nx kv) in
  ∃ vs, odefunc t U kv
        = (inr ((dudt_A_at kv t A P <$> seqZ 0 (Nx kv))
                ++ (dudt_P_at kv t A P <$> seqZ 0 (Nx kv))),
           EvA_cyto A :: EvP_cyto P :: vs)
        ∧ Forall is_v_call vs.
Proof.
  intros HU HN HX Hin A P.
  destruct (slice_lengths U (Nx kv) HU) as [HA HP]. fold A P in HA, HP.
  unfold odefunc. fold A P.
  rewrite HU, Z.eqb_refl. unfold assert. rewrite ret_bind.
  rewrite divergence_test
    by (intros ->; unfold len in HU; simpl in HU; lia).
  apply diverges_false in Hin. rewrite Hin.
  unfold Np.zeros. replace (Nx kv <? 0)%Z with false by lia.
  rewrite !ret_bind.
  change (call_A_cyto kv A) with ((inr (A_cyto kv kv A), [EvA_cyto A]) : M Q).
  change (call_P_cyto kv P) with ((inr (P_cyto kv kv P), [EvP_cyto P]) : M Q).
  rewrite !bind_inr. cbn [outcome trace fst snd].
  set (zs := replicate (Z.to_nat (Nx kv)) 0).
  assert (Hzs : length zs = Z.to_nat (Nx kv)) by apply length_replicate.
  match goal with
  | |- ∃ vs, (outcome ?m, _) = _ ∧ _ =>
      assert (Hm : yields m ((dudt_A_at kv t A P <$> seqZ 0 (Nx kv))
                             ++ (dudt_P_at kv t A P <$> seqZ 0 (Nx kv))))
  end.
  { eapply yields_bind.
    { rewrite disc_diffusion_term_spec by (done || lia). apply yields_ret. }
    eapply yields_bind; [by apply yields_right_boundary_flux|].
    eapply yields_bind.
    { rewrite R_A_spec by (done || lia). apply yields_ret. }
    eapply yields_bind; [apply yields_setitem; unfold len; lia|].
    eapply yields_bind.
    { rewrite disc_diffusion_term_spec by (done || lia). apply yields_ret. }
    eapply yields_bind; [by apply yields_right_boundary_flux|].
    eapply yields_bind.
    { rewrite R_P_spec by (done || lia). apply yields_ret. }
    eapply yields_bind; [apply yields_setitem; unfold len; lia|].
    fold (dudt_A_at kv t A P (Nx kv - 1)) (dudt_P_at kv t A P (Nx kv - 1)).
    eapply yields_bind.
    { unfold Np.arange. rewrite Z.sub_0_r.
      match goal with
      | |- yields (for_each _ ?body (?a0, ?p0)) _ =>
          pose proof (λ Hb, yields_for_each_nodes body (dudt_A_at kv t A P)
                              (dudt_P_at kv t A P) (Z.to_nat (Nx kv - 1))
                              a0 p0 Hb (Z.to_nat (Nx kv - 1))) as Hloop
      end.
      rewrite Z2Nat.id in Hloop by lia.
      apply Hloop;
        [|lia|rewrite length_insert; lia|rewrite length_insert; lia].
      intros i dA dP Hi HdA HdP. rewrite !length_insert in HdA, HdP.
      eapply yields_bind.
      { rewrite disc_diffusion_term_spec by (done || lia).
        apply yields_ret. }
      eapply yields_bind;
        [apply yields_disc_spatial_derivative; done || lia|].
      eapply yields_bind.
      { rewrite R_A_spec by (done || lia). apply yields_ret. }
      eapply yields_bind; [apply yields_setitem; unfold len; lia|].
      eapply yields_bind.
      { rewrite disc_diffusion_term_spec by (done || lia).
        apply yields_ret. }
      eapply yields_bind;
        [apply yields_disc_spatial_derivative; done || lia|].
      eapply yields_bind.
      { rewrite R_P_spec by (done || lia). apply yields_ret. }
      eapply yields_bind; [apply yields_setitem; unfold len; lia|].
      rewrite Nat2Z.id. apply yields_ret. }
    unfold Np.ravel. cbn [mjoin list_join]. rewrite app_nil_r.
    assert (Hlast : ∀ (f : Z → Q),
      (f <$> seqZ 0 (Nx kv - 1))
      ++ drop (Z.to_nat (Nx kv - 1))
           (<[Z.to_nat (Nx kv - 1) := f (Nx kv - 1)%Z]> zs)
      = f <$> seqZ 0 (Nx kv)).
    { intros f.
      replace (seqZ 0 (Nx kv))
        with (seqZ 0 (Z.of_nat (S (Z.to_nat (Nx kv - 1))))) by (f_equal; lia).
      rewrite seqZ_S, fmap_app, Z2Nat.id by lia. f_equal.
      rewrite drop_insert_ge, Nat.sub_diag by lia.
      unfold zs. rewrite drop_replicate.
      replace (Z.to_nat (Nx kv) - Z.to_nat (Nx kv - 1))%nat with 1%nat
        by lia.
      simpl. same_nodes. }
    rewrite !Hlast. apply yields_ret. }
  destruct Hm as (vs & Hm & Hvs). exists vs. split; [|done].
  rewrite Hm. reflexivity.
Qed.

Lemma item_fmap_seqZ (f : Z → Q) (n i : Z) :
  (0 ≤ i < n)%Z → item (f <$> seqZ 0 n) i = f i.
Proof.
  intros Hi. unfold item. apply nth_lookup_Some.
  rewrite list_lookup_fmap, lookup_seqZ_lt by lia. simpl.
  same_nodes.
Qed.

Lemma item_app_l (l1 l2 : list Q) (i : Z) :
  (0 ≤ i < len l1)%Z → item (l1 ++ l2) i = item l1 i.
Proof. intros Hi. unfold item, len in *. apply app_nth1. lia. Qed.

Lemma item_app_r (l1 l2 : list Q) (i : Z) :
  (0 ≤ i)%Z → item (l1 ++ l2) (len l1 + i) = item l2 i.
Proof.
  intros Hi. unfold item, len.
  rewrite Z2Nat.inj_add, Nat2Z.id by lia. apply app_nth2_plus.
Qed.

Lemma len_fmap_seqZ (f : Z → Q) (n : Z) :
  (0 ≤ n)%Z → len (f <$> seqZ 0 n) = n.
Proof. intros Hn. unfold len. rewrite length_fmap, length_seqZ. lia. Qed.

Lemma item_blocks (fA fP : Z → Q) (n i : Z) :
  (0 ≤ i < n)%Z →
  item ((fA <$> seqZ 0 n) ++ (fP <$> seqZ 0 n)) i = fA i
  ∧ item ((fA <$> seqZ 0 n) ++ (fP <$> seqZ 0 n)) (n + i) = fP i.
Proof.
  intros Hi. pose proof (len_fmap_seqZ fA n) as Hl. split.
  - rewrite item_app_l, item_fmap_seqZ by lia. reflexivity.
  - rewrite <- Hl at 3 by lia.
    rewrite item_app_r, item_fmap_seqZ by lia. reflexivity.
Qed.

(** ** The right-hand side on floats *)

Lemma float_ret_bind {A B} (a : A) (f : A → Nan.M B) : Nan.ret a ≫= f = f a.
Proof.
  unfold mbind, Nan.M_bind, Nan.bind, Nan.ret. by destruct (f a).
Qed.

Lemma float_bind_inr {A B} (a : A) (l : list Nan.event) (f : A → Nan.M B) :
  ((inr a, l) : Nan.M A) ≫= f
  = (Nan.outcome (f a), l ++ Nan.trace (f a)).
Proof.
  unfold mbind, Nan.M_bind, Nan.bind, Nan.outcome, Nan.trace.
  by destruct (f a).
Qed.

Lemma returns_ret {A} (a : A) (I : A → Prop) : I a → returns (mret a) I.
Proof. intros Ha. by exists a, []. Qed.

Lemma returns_bind {A B} (m : Nan.M A) (f : A → Nan.M B) (I : A → Prop)
    (J : B → Prop) :
  returns m I → (∀ a, I a → returns (f a) J) → returns (m ≫= f) J.
Proof.
  intros (a & l & -> & Ha) Hf.
  destruct (Hf a Ha) as (b & l' & Hb & HJ).
  exists b, (l ++ l'). split; [|done].
  by rewrite float_bind_inr, Hb.
Qed.

Lemma returns_getitem {T} (Y : list T) (i : Z) :
  (0 ≤ i < len Y)%Z → returns (Nan.getitem Y i) (λ _, True).
Proof.
  intros Hi. unfold Nan.getitem.
  replace (i <? 0)%Z with false by lia.
  replace (0 <=? i)%Z with true by lia.
  destruct (lookup_lt_is_Some_2 Y (Z.to_nat i)) as [y ->];
    [unfold len in Hi; lia|].
  by apply (returns_ret y).
Qed.

Lemma returns_setitem {T} (Y : list T) (i : Z) (v : T) :
  (0 ≤ i < len Y)%Z →
  returns (Nan.setitem Y i v) (λ Y', length Y' = length Y).
Proof.
  intros Hi. unfold Nan.setitem.
  replace (i <? 0)%Z with false by lia.
  replace ((0 <=? i) && (i <? len Y))%Z with true by lia.
  apply (returns_ret (<[Z.to_nat i := v]> Y)). apply length_insert.
Qed.

Lemma returns_call_v_func (kv : Nan.kvals) (x t : Q) :
  returns (Nan.call_v_func kv x t) (λ _, True).
Proof. by exists (Nan.v_func kv kv x t), [Nan.EvV_func x t]. Qed.

Lemma returns_call_A_cyto (kv : Nan.kvals) (A : list Nan.float) :
  returns (Nan.call_A_cyto kv A) (λ _, True).
Proof. by exists (Nan.A_cyto kv kv A), [Nan.EvA_cyto A]. Qed.

Lemma returns_call_P_cyto (kv : Nan.kvals) (P : list Nan.float) :
  returns (Nan.call_P_cyto kv P) (λ _, True).
Proof. by exists (Nan.P_cyto kv kv P), [Nan.EvP_cyto P]. Qed.

Lemma returns_for_each {T S} (xs : list T) (body : T → S → Nan.M S)
    (Inv : S → Prop) (s : S) :
  Inv s → (∀ x s, x ∈ xs → Inv s → returns (body x s) Inv) →
  returns (Nan.for_each xs body s) Inv.
Proof.
  revert s. induction xs as [|x xs IH]; intros s Hs Hbody; simpl.
  - by apply (returns_ret s).
  - eapply returns_bind; [apply Hbody; [left|done]|].
    intros s' Hs'. apply IH; [done|].
    intros y s'' Hy. apply Hbody. by right.
Qed.

Ltac return_step :=
  lazymatch goal with
  | |- returns (mret _) _ => by apply returns_ret
  | |- returns (Nan.getitem _ _) _ =>
      apply returns_getitem; unfold len in *; lia
  | |- returns (Nan.call_v_func _ _ _) _ => apply returns_call_v_func
  | |- returns (_ ≫= _) _ => eapply returns_bind; [|intros ? ?]
  end.

Section FloatRightHandSide.

Variables (kv : Nan.kvals) (t : Q).

Lemma returns_disc_diffusion_term (Y : list Nan.float) (i : Z) :
  len Y = Nx kv → (2 ≤ Nx kv)%Z → (0 ≤ i ≤ Nx kv - 1)%Z →
  returns (Nan.disc_diffusion_term kv Y i) (λ _, True).
Proof.
  intros HY HN Hi. unfold Nan.disc_diffusion_term.
  destruct (i =? 0)%Z eqn:E0; [|destruct (i =? Nx kv - 1)%Z eqn:E1];
    repeat return_step.
Qed.

Lemma returns_flux (Y : list Nan.float) (i : Z) :
  len Y = Nx kv → len (X kv) = Nx kv → (0 ≤ i ≤ Nx kv - 1)%Z →
  returns (Nan.flux kv Y t i) (λ _, True).
Proof. intros HY HX Hi. unfold Nan.flux. repeat return_step. Qed.

Lemma returns_disc_spatial_derivative (Y : list Nan.float) (i : Z) :
  len Y = Nx kv → len (X kv) = Nx kv → (0 ≤ i ≤ Nx kv - 2)%Z →
  returns (Nan.disc_spatial_derivative kv (Nan.flux kv Y t) i) (λ _, True).
Proof.
  intros HY HX Hi. unfold Nan.disc_spatial_derivative.
  eapply returns_bind; [apply returns_flux; done || lia|]. intros ? _.
  eapply returns_bind; [apply returns_flux; done || lia|]. intros ? _.
  return_step.
Qed.

Lemma returns_right_boundary_flux (Y : list Nan.float) :
  len Y = Nx kv → len (X kv) = Nx kv → (2 ≤ Nx kv)%Z →
  returns (Nan.right_boundary_flux kv Y t) (λ _, True).
Proof.
  intros HY HX HN. unfold Nan.right_boundary_flux. repeat return_step.
Qed.

Lemma returns_R_A (A P : list Nan.float) (c : Nan.float) (i : Z) :
  len A = Nx kv → len P = Nx kv → (0 ≤ i ≤ Nx kv - 1)%Z →
  returns (Nan.R_A kv A P c t i) (λ _, True).
Proof. intros HA HP Hi. unfold Nan.R_A. repeat return_step. Qed.

Lemma returns_R_P (A P : list Nan.float) (c : Nan.float) (i : Z) :
  len A = Nx kv → len P = Nx kv → (0 ≤ i ≤ Nx kv - 1)%Z →
  returns (Nan.R_P kv A P c t i) (λ _, True).
Proof. intros HA HP Hi. unfold Nan.R_P. repeat return_step. Qed.

End FloatRightHandSide.

(** *** The divergence check on floats *)

Lemma float_lt_number (x : Nan.float) (b : Q) :
  Nan.lt x (Nan.num b) = true ↔ ∃ a, x = Nan.num a ∧ a < b.
Proof.
  destruct x as [a|]; simpl.
  - rewrite Qltb_lt. split; [eauto|]. by intros (a' & [= <-] & H).
  - split; [done|]. by intros (a & ? & _).
Qed.

Lemma float_gt_number (x : Nan.float) (b : Q) :
  Nan.gt x (Nan.num b) = true ↔ ∃ a, x = Nan.num a ∧ b < a.
Proof.
  destruct x as [a|]; unfold Nan.gt; simpl.
  - rewrite Qltb_lt. split; [eauto|]. by intros (a' & [= <-] & H).
  - split; [done|]. by intros (a & ? & _).
Qed.

(** A NaN in first position is kept by [min] and by [max]: no later item
    compares below or above it. *)
Lemma foldl_min_nan (U : list Nan.float) :
  foldl (λ m x, if Nan.lt x m then x else m) Nan.nan U = Nan.nan.
Proof.
  induction U as [|y U IH]; [done|]. simpl.
  replace (Nan.lt y Nan.nan) with false by (by destruct y). exact IH.
Qed.

Lemma foldl_max_nan (U : list Nan.float) :
  foldl (λ m x, if Nan.gt x m then x else m) Nan.nan U = Nan.nan.
Proof.
  induction U as [|y U IH]; [done|]. simpl.
  replace (Nan.gt y Nan.nan) with false by (by destruct y). exact IH.
Qed.

(** After a number in first position, [min] and [max] are the least and
    the greatest of the numbers of the vector: a later NaN is passed over. *)
Lemma foldl_min_number (U : list Nan.float) (q : Q) :
  ∃ m, foldl (λ m x, if Nan.lt x m then x else m) (Nan.num q) U = Nan.num m
       ∧ Nan.num m ∈ Nan.num q :: U
       ∧ ∀ x, Nan.num x ∈ Nan.num q :: U → m <= x.
Proof.
  revert q. induction U as [|y U IH]; intros q; simpl.
  - exists q. split; [done|]. split; [left|].
    intros x [= ->]%list_elem_of_singleton. apply Qle_refl.
  - destruct y as [b|]; simpl.
    + destruct (Qltb b q) eqn:E.
      * destruct (IH b) as (m & -> & Hin & Hle). exists m.
        split; [done|]. split; [by right|].
        assert (Hmb : m <= b) by (apply Hle; left).
        intros x [[= ->]|Hx]%elem_of_cons; [|by apply Hle].
        apply Qltb_lt in E. lra.
      * destruct (IH q) as (m & -> & Hin & Hle). exists m.
        split; [done|]. split.
        { apply elem_of_cons in Hin as [Hin|Hin];
            [rewrite Hin; left | by do 2 right]. }
        assert (Hmq : m <= q) by (apply Hle; left).
        intros x [[= ->]|[[= ->]|Hx]%elem_of_cons]%elem_of_cons.
        -- done.
        -- apply Qltb_ge in E. lra.
        -- apply Hle. by right.
    + destruct (IH q) as (m & -> & Hin & Hle). exists m.
      split; [done|]. split.
      { apply elem_of_cons in Hin as [Hin|Hin];
          [rewrite Hin; left | by do 2 right]. }
      intros x [[= ->]|[?|Hx]%elem_of_cons]%elem_of_cons.
      * apply Hle. left.
      * done.
      * apply Hle. by right.
Qed.

Lemma foldl_max_number (U : list Nan.float) (q : Q) :
  ∃ m, foldl (λ m x, if Nan.gt x m then x else m) (Nan.num q) U = Nan.num m
       ∧ Nan.num m ∈ Nan.num q :: U
       ∧ ∀ x, Nan.num x ∈ Nan.num q :: U → x <= m.
Proof.
  revert q. induction U as [|y U IH]; intros q; cbn [foldl].
  - exists q. split; [done|]. split; [left|].
    intros x [= ->]%list_elem_of_singleton. apply Qle_refl.
  - destruct y as [b|];
      [change (Nan.gt (Nan.num b) (Nan.num q)) with (Qltb q b)
      |change (Nan.gt Nan.nan (Nan.num q)) with false]; cbv iota.
    + destruct (Qltb q b) eqn:E.
      * destruct (IH b) as (m & -> & Hin & Hle). exists m.
        split; [done|]. split; [by right|].
        assert (Hmb : b <= m) by (apply Hle; left).
        intros x [[= ->]|Hx]%elem_of_cons; [|by apply Hle].
        apply Qltb_lt in E. lra.
      * destruct (IH q) as (m & -> & Hin & Hle). exists m.
        split; [done|]. split.
        { apply elem_of_cons in Hin as [Hin|Hin];
            [rewrite Hin; left | by do 2 right]. }
        assert (Hmq : q <= m) by (apply Hle; left).
        intros x [[= ->]|[[= ->]|Hx]%elem_of_cons]%elem_of_cons.
        -- done.
        -- apply Qltb_ge in E. lra.
        -- apply Hle. by right.
    + destruct (IH q) as (m & -> & Hin & Hle). exists m.
      split; [done|]. split.
      { apply elem_of_cons in Hin as [Hin|Hin];
          [rewrite Hin; left | by do 2 right]. }
      intros x [[= ->]|[?|Hx]%elem_of_cons]%elem_of_cons.
      * apply Hle. left.
      * done.
      * apply Hle. by right.
Qed.

Lemma number_diverges_true (U : list Nan.float) :
  number_diverges U = true
  ↔ ∃ q, Nan.num q ∈ U ∧ (q < -100 ∨ 100 < q).
Proof.
  unfold number_diverges. rewrite existsb_exists. split.
  - intros (u & Hu%list_elem_of_In & H).
    apply orb_true_iff in H as [H|H].
    + apply float_lt_number in H as (a & -> & H). eauto.
    + apply float_gt_number in H as (a & -> & H). eauto.
  - intros (q & Hq%list_elem_of_In & H). exists (Nan.num q).
    split; [done|]. apply orb_true_iff.
    destruct H as [H|H]; [left|right]; by apply Qltb_lt.
Qed.

Lemma number_diverges_false (U : list Nan.float) :
  number_diverges U = false
  ↔ ∀ q, Nan.num q ∈ U → -100 <= q ∧ q <= 100.
Proof.
  rewrite <- not_true_iff_false, number_diverges_true. split.
  - intros H q Hq. split; apply Qnot_lt_le; intros Hlt; apply H; eauto.
  - intros H (q & Hq & Hlt). destruct (H q Hq). lra.
Qed.

(** The test [min(U) < -100 or max(U) > 100]: behind a NaN in first
    position it is false; behind a number it says whether some number of
    the vector is out of bounds. *)
Lemma float_divergence_test {B} (U : list Nan.float) (K : bool → Nan.M B) :
  U ≠ [] →
  (lo ← Nan.min U;
   diverged ← (if Nan.lt lo (Nan.num (-100)) then mret true
               else hi ← Nan.max U; mret (Nan.gt hi (Nan.num 100)));
   K diverged)
  = K (test_fires U).
Proof.
  destruct U as [|[q|] U]; [done| |]; intros _; cbn [test_fires].
  - destruct (foldl_min_number U q) as (lo & Hlo & Hlo_in & Hlo_le).
    destruct (foldl_max_number U q) as (hi & Hhi & Hhi_in & Hhi_le).
    unfold Nan.min, Nan.max. rewrite Hlo, Hhi, float_ret_bind.
    assert (Hd : (if Nan.lt (Nan.num lo) (Nan.num (-100)) then true
                  else Nan.gt (Nan.num hi) (Nan.num 100))
                 = number_diverges (Nan.num q :: U)).
    { destruct (number_diverges (Nan.num q :: U)) eqn:E.
      - apply number_diverges_true in E as (x & Hx & [H|H]).
        + replace (Nan.lt (Nan.num lo) (Nan.num (-100))) with true; [done|].
          symmetry. apply Qltb_lt. specialize (Hlo_le x Hx). lra.
        + destruct (Nan.lt (Nan.num lo) (Nan.num (-100))); [done|].
          apply Qltb_lt. specialize (Hhi_le x Hx). lra.
      - rewrite number_diverges_false in E.
        destruct (E lo Hlo_in) as [H1 _]. destruct (E hi Hhi_in) as [_ H2].
        apply Qltb_ge in H1, H2. unfold Nan.gt. simpl. by rewrite H1, H2. }
    rewrite <- Hd.
    destruct (Nan.lt (Nan.num lo) (Nan.num (-100))).
    + by rewrite (float_ret_bind true).
    + by rewrite !float_ret_bind.
  - unfold Nan.min, Nan.max. rewrite foldl_min_nan, foldl_max_nan.
    rewrite float_ret_bind. cbn [Nan.lt]. by rewrite !float_ret_bind.
Qed.

(** *** The right-hand side as a whole, on floats *)

Lemma float_slice_lengths {T} (U : list T) (n : Z) :
  len U = (2 * n)%Z →
  len (Nan.slice_to U n) = n ∧ len (Nan.slice_from U n) = n.
Proof.
  intros HU. unfold Nan.slice_to, Nan.slice_from, slice_bound, len in *.
  rewrite length_take, length_drop.
  replace (n <? 0)%Z with false by lia. lia.
Qed.




(** When the test does not fire, on two nodes or more, the right-hand side
    returns a vector of the length of the state. *)
Lemma float_odefunc_passed (t : Q) (U : list Nan.float) (kv : Nan.kvals) :
  len U = (2 * Nx kv)%Z → (2 ≤ Nx kv)%Z → len (X kv) = Nx kv →
  test_fires U = false →
  returns (Nan.odefunc t U kv) (λ dudt, len dudt = len U).
Proof.
  intros HU HN HX Hd.
  destruct (float_slice_lengths U (Nx kv) HU) as [HA HP].
  unfold Nan.odefunc.
  rewrite HU, Z.eqb_refl. unfold Nan.assert. rewrite float_ret_bind.
  rewrite float_divergence_test
    by (intros ->; unfold len in HU; simpl in HU; lia).
  rewrite Hd.
  set (A := Nan.slice_to U (Nx kv)) in *.
  set (P := Nan.slice_from U (Nx kv)) in *.
  unfold Nan.zeros. replace (Nx kv <? 0)%Z with false by lia.
  rewrite !float_ret_bind.
  set (zs := replicate (Z.to_nat (Nx kv)) (Nan.num 0)).
  assert (Hzs : length zs = Z.to_nat (Nx kv)) by apply length_replicate.
  eapply returns_bind; [apply returns_call_A_cyto|]. intros A_cyto_r _.
  eapply returns_bind; [apply returns_call_P_cyto|]. intros P_cyto_r _.
  eapply returns_bind;
    [apply returns_disc_diffusion_term; done || lia|]. intros dA _.
  eapply returns_bind; [by apply returns_right_boundary_flux|]. intros fA _.
  eapply returns_bind; [apply returns_R_A; done || lia|]. intros rA _.
  eapply returns_bind; [apply returns_setitem; unfold len; lia|].
  intros dudt_A HdA.
  eapply returns_bind;
    [apply returns_disc_diffusion_term; done || lia|]. intros dP _.
  eapply returns_bind; [by apply returns_right_boundary_flux|]. intros fP _.
  eapply returns_bind; [apply returns_R_P; done || lia|]. intros rP _.
  eapply returns_bind; [apply returns_setitem; unfold len; lia|].
  intros dudt_P HdP.
  eapply returns_bind.
  { apply (returns_for_each _ _
             (λ s : list Nan.float * list Nan.float,
                length s.1 = length zs ∧ length s.2 = length zs));
      [done|].
    intros i [dA' dP'] Hi [HdA' HdP']. simpl in HdA', HdP'.
    unfold Np.arange in Hi. apply elem_of_seqZ in Hi.
    eapply returns_bind;
      [apply returns_disc_diffusion_term; done || lia|]. intros ? _.
    eapply returns_bind;
      [apply returns_disc_spatial_derivative; done || lia|]. intros ? _.
    eapply returns_bind; [apply returns_R_A; done || lia|]. intros ? _.
    eapply returns_bind; [apply returns_setitem; unfold len; lia|].
    intros dA'' HdA''.
    eapply returns_bind;
      [apply returns_disc_diffusion_term; done || lia|]. intros ? _.
    eapply returns_bind;
      [apply returns_disc_spatial_derivative; done || lia|]. intros ? _.
    eapply returns_bind; [apply returns_R_P; done || lia|]. intros ? _.
    eapply returns_bind; [apply returns_setitem; unfold len; lia|].
    intros dP'' HdP''.
    apply (returns_ret (dA'', dP'')). simpl. split; congruence. }
  intros [dA' dP'] [HdA' HdP']. simpl in HdA', HdP'.
  apply (returns_ret (Nan.ravel [dA'; dP'])).
  unfold Nan.ravel, len in *. cbn [mjoin list_join].
  rewrite !length_app. simpl. lia.
Qed.






(** C5.  In an evaluation of the right-hand side on a vector within bounds,
    [A_cyto(kvals, A)] and [P_cyto(kvals, P)] are each called exactly once,
    and the reaction part of every node [x_i] is
    [k_onA * A_cyto_r - k_offA * A[x_i] - k_AP * P[x_i]^alpha * A[x_i]] for A
    and [k_onP * P_cyto_r - k_offP * P[x_i] - k_PA * A[x_i]^beta * P[x_i]]
    for P, with those two values at every node. *)
Theorem odefunc_reaction (t : Q) (U : list Q) (kv : kvals) :
  len U = (2 * Nx kv)%Z → (2 ≤ Nx kv)%Z → len (X kv) = Nx kv →
  in_range U →
  let A := slice_to U (Nx kv) in
  let P := slice_from U (Nx kv) in
  let A_cyto_r := A_cyto kv kv A in
  let P_cyto_r := P_cyto kv kv P in
  count_A_cyto (trace (odefunc t U kv)) = 1%nat
  ∧ count_P_cyto (trace (odefunc t U kv)) = 1%nat
  ∧ EvA_cyto A ∈ trace (odefunc t U kv)
  ∧ EvP_cyto P ∈ trace (odefunc t U kv)
  ∧ ∃ dudt, outcome (odefunc t U kv) = inr dudt ∧
      ∀ i, (0 ≤ i ≤ Nx kv - 1)%Z →
        R_A kv A P A_cyto_r t i
        = mret (k_onA kv * A_cyto_r - k_offA kv * item A i
                - k_AP kv * (item P i ^ alpha kv) * item A i)
        ∧ R_P kv A P P_cyto_r t i
          = mret (k_onP kv * P_cyto_r - k_offP kv * item P i
                  - k_PA kv * (item A i ^ beta kv) * item P i)
        ∧ item dudt i
          = D_A kv * diffusion_at kv A i - advection_at kv t A i
            + (k_onA kv * A_cyto_r - k_offA kv * item A i
               - k_AP kv * (item P i ^ alpha kv) * item A i)
        ∧ item dudt (Nx kv + i)
          = D_P kv * diffusion_at kv P i - advection_at kv t P i
            + (k_onP kv * P_cyto_r - k_offP kv * item P i
               - k_PA kv * (item A i ^ beta kv) * item P i).
Proof.
  intros HU HN HX Hr A P A_cyto_r P_cyto_r.
  destruct (slice_lengths U (Nx kv) HU) as [HA HP]. fold A P in HA, HP.
  destruct (odefunc_in_range t U kv HU HN HX Hr) as (vs & -> & Hvs).
  fold A P. cbn [trace outcome fst snd].
  assert (Hno : ∀ g : event → bool,
            (∀ x s, g (EvV_func x s) = false) → List.filter g vs = []).
  { intros g Hg. induction Hvs as [|ev vs (x & s & ->) _ IH]; [done|].
    simpl. by rewrite Hg. }
  split; [|split; [|split; [|split]]].
  - unfold count_A_cyto. simpl. by rewrite Hno.
  - unfold count_P_cyto. simpl. by rewrite Hno.
  - left.
  - right. left.
  - eexists. split; [reflexivity|]. intros i Hi.
    destruct (item_blocks (dudt_A_at kv t A P) (dudt_P_at kv t A P)
                (Nx kv) i) as [-> ->]; [lia|].
    split; [|split; [|split]].
    + by apply R_A_spec.
    + by apply R_P_spec.
    + reflexivity.
    + reflexivity.
Qed.

(** ** Mass under pure diffusion *)

Lemma qsum_app (l1 l2 : list Q) : qsum (l1 ++ l2) == qsum l1 + qsum l2.
Proof.
  unfold qsum. induction l1 as [|x l1 IH]; simpl; [ring|].
  rewrite IH. ring.
Qed.

Lemma qsum_fmap_ext (f g : Z → Q) (l : list Z) :
  (∀ i, i ∈ l → f i == g i) → qsum (f <$> l) == qsum (g <$> l).
Proof.
  unfold qsum. induction l as [|i l IH]; intros H; simpl; [reflexivity|].
  rewrite (H i) by left. rewrite IH; [reflexivity|].
  intros j Hj. apply H. by right.
Qed.

(** A sum of consecutive differences collapses to its two ends. *)
Lemma qsum_telescope (G : Z → Q) (a : Z) (k : nat) :
  qsum ((λ i, G (i + 1)%Z - G i) <$> seqZ a (Z.of_nat k))
  == G (a + Z.of_nat k)%Z - G a.
Proof.
  induction k as [|k IH].
  - change (Z.of_nat 0) with 0%Z. rewrite seqZ_nil, Z.add_0_r by lia.
    unfold qsum. simpl. ring.
  - rewrite seqZ_S, fmap_app, qsum_app, IH. unfold qsum. simpl.
    replace (a + Z.of_nat k + 1)%Z with (a + Z.of_nat (S k))%Z by lia. ring.
Qed.

Lemma reflected_ends (n : Z) (Y : list Q) :
  (2 ≤ n)%Z →
  reflected n Y (-1) = reflected n Y 1
  ∧ reflected n Y n = reflected n Y (n - 2).
Proof.
  intros Hn. unfold reflected. split; decide_nodes; same_nodes.
Qed.

(** The trapezoid sum of a diffusion term with reflecting ends vanishes. *)
Lemma trapezoid_mass_diffusion (kv : kvals) (D : Q) (Y : list Q) (F : Z → Q) :
  (2 ≤ Nx kv)%Z →
  (∀ i, (0 ≤ i < Nx kv)%Z → F i == D * diffusion_at kv Y i) →
  trapezoid_mass (Nx kv) (F <$> seqZ 0 (Nx kv)) == 0.
Proof.
  intros HN HF. unfold trapezoid_mass.
  set (n := Nx kv) in *. set (y := reflected n Y).
  set (G := λ i : Z, D * (y i - y (i - 1)%Z) / deltax kv ^ 2).
  assert (Hstep : ∀ i, (0 ≤ i < n)%Z →
            item (F <$> seqZ 0 n) i == G (i + 1)%Z - G i).
  { intros i Hi. rewrite item_fmap_seqZ, HF by lia.
    unfold diffusion_at, second_difference, G. fold n y.
    replace (i + 1 - 1)%Z with i by lia. unfold Qdiv. ring. }
  rewrite (qsum_fmap_ext _ (λ i, node_weight n i * (G (i + 1)%Z - G i))).
  2:{ intros i Hi%elem_of_seqZ. rewrite Hstep by lia. reflexivity. }
  replace (seqZ 0 n) with ([0%Z] ++ seqZ 1 (Z.of_nat (Z.to_nat (n - 2)))
                           ++ [(n - 1)%Z]).
  2:{ rewrite (seqZ_cons 0 n) by lia. simpl. f_equal.
      replace (Z.pred n) with (Z.of_nat (S (Z.to_nat (n - 2)))) by lia.
      rewrite seqZ_S. do 2 f_equal. lia. }
  rewrite !fmap_app, !qsum_app.
  rewrite (qsum_fmap_ext _ (λ i, G (i + 1)%Z - G i)
             (seqZ 1 (Z.of_nat (Z.to_nat (n - 2))))).
  2:{ intros i Hi%elem_of_seqZ. unfold node_weight.
      replace ((i =? 0) || (i =? n - 1))%Z with false by lia. ring. }
  rewrite qsum_telescope. unfold qsum, node_weight. simpl.
  rewrite Z.eqb_refl, orb_true_r.
  replace (1 + Z.of_nat (Z.to_nat (n - 2)))%Z with (n - 1)%Z by lia.
  replace (n - 1 + 1)%Z with n by lia.
  assert (H0 : G 0%Z == - G 1%Z).
  { unfold G, y. change (0 - 1)%Z with (-1)%Z. change (1 - 1)%Z with 0%Z.
    destruct (reflected_ends n Y HN) as [-> _].
    unfold Qdiv. ring. }
  assert (Hn : G n == - G (n - 1)%Z).
  { unfold G, y. destruct (reflected_ends n Y HN) as [_ ->].
    replace (n - 1 - 1)%Z with (n - 2)%Z by lia.
    unfold Qdiv. ring. }
  rewrite H0, Hn. change (0 + 1)%Z with 1%Z.
  generalize (G 1%Z) (G (n - 1)%Z). intros g1 gn. field.
Qed.

Lemma slices_of_blocks (a b : list Q) :
  slice_to (a ++ b) (len a) = a ∧ slice_from (a ++ b) (len a) = b.
Proof.
  unfold slice_to, slice_from, slice_bound, len.
  destruct (Z.ltb_spec (Z.of_nat (length a)) 0); [lia|].
  rewrite length_app, Z.min_r, Nat2Z.id by lia.
  split; [apply take_app_length | apply drop_app_length].
Qed.

(** C4, the unweighted sum.  With no reaction and no velocity the
    right-hand side at [A = [1; 0; 0]], [P = [0; 0; 0]] on three nodes is
    [[-2; 1; 0; 0; 0; 0]]: its components sum to [-1], not to [0]. *)
Lemma plain_mass_not_conserved :
  zero_rates pure_diffusion ∧ zero_velocity pure_diffusion
  ∧ in_range [1; 0; 0; 0; 0; 0]
  ∧ ∃ dudt, outcome (odefunc 0 [1; 0; 0; 0; 0; 0] pure_diffusion) = inr dudt
            ∧ plain_mass dudt == -1
            ∧ ¬ plain_mass dudt == 0.
Proof.
  split; [|split; [|split]].
  - repeat split; reflexivity.
  - intros x t. reflexivity.
  - by apply diverges_false.
  - eexists. split; [vm_compute; reflexivity|]. split; [reflexivity|].
    discriminate.
Qed.

(** C4, as the code has it.  With every rate constant zero and the velocity
    zero everywhere, the right-hand side on a vector within bounds returns a
    vector whose A block and whose P block each have trapezoid sum zero (end
    nodes counted for one half): the trapezoid mass of A and of P, hence
    their total, is conserved. *)
Theorem odefunc_conserves_trapezoid_mass (t : Q) (U : list Q) (kv : kvals) :
  zero_rates kv → zero_velocity kv →
  len U = (2 * Nx kv)%Z → (2 ≤ Nx kv)%Z → len (X kv) = Nx kv →
  0 < deltax kv → in_range U →
  ∃ dudt, outcome (odefunc t U kv) = inr dudt
    ∧ trapezoid_mass (Nx kv) (slice_to dudt (Nx kv)) == 0
    ∧ trapezoid_mass (Nx kv) (slice_from dudt (Nx kv)) == 0
    ∧ trapezoid_mass (Nx kv) (slice_to dudt (Nx kv))
      + trapezoid_mass (Nx kv) (slice_from dudt (Nx kv)) == 0.
Proof.
  intros (HonA & HonP & HoffA & HoffP & HAP & HPA) Hv HU HN HX Hh Hr.
  destruct (odefunc_in_range t U kv HU HN HX Hr) as (vs & -> & _).
  set (A := slice_to U (Nx kv)). set (P := slice_from U (Nx kv)).
  eexists. split; [reflexivity|].
  destruct (slices_of_blocks (dudt_A_at kv t A P <$> seqZ 0 (Nx kv))
              (dudt_P_at kv t A P <$> seqZ 0 (Nx kv))) as [HsA HsP].
  rewrite len_fmap_seqZ in HsA, HsP by lia. rewrite HsA, HsP.
  assert (Hadv : ∀ Y i, advection_at kv t Y i == 0).
  { assert (Hv0 : ∀ j, velocity_at kv t j == 0) by (intros j; apply Hv).
    intros Y i. unfold advection_at, flux_at.
    destruct (i =? Nx kv - 1)%Z; rewrite !Hv0; unfold Qdiv; ring. }
  assert (HA0 : trapezoid_mass (Nx kv)
                  (dudt_A_at kv t A P <$> seqZ 0 (Nx kv)) == 0).
  { apply (trapezoid_mass_diffusion kv (D_A kv) A); [done|].
    intros i Hi. unfold dudt_A_at, reaction_A_at.
    rewrite Hadv, HonA, HoffA, HAP. ring. }
  assert (HP0 : trapezoid_mass (Nx kv)
                  (dudt_P_at kv t A P <$> seqZ 0 (Nx kv)) == 0).
  { apply (trapezoid_mass_diffusion kv (D_P kv) P); [done|].
    intros i Hi. unfold dudt_P_at, reaction_P_at.
    rewrite Hadv, HonP, HoffP, HPA. ring. }
  split; [exact HA0|]. split; [exact HP0|].
  rewrite HA0, HP0. reflexivity.
Qed.

(** ** The cytoplasmic feedback *)

Lemma simpson_panel_constant (c h0 h1 : Q) :
  0 < h0 → 0 < h1 → simpson_panel c c c h0 h1 == c * (h0 + h1).
Proof. intros H0 H1. unfold simpson_panel. field. split; lra. Qed.

Lemma simpson_last_constant (c h0 h1 : Q) :
  0 < h0 → 0 < h1 → simpson_last c c c h0 h1 == c * h1.
Proof. intros H0 H1. unfold simpson_last. field. repeat split; lra. Qed.

(** The composite rule integrates a constant exactly on any increasing
    grid. *)
Ltac red_lists :=
  cbn [length replicate simpson_rule List.last List.hd ascending] in *.

Lemma simpson_rule_constant (c : Q) (xs : list Q) :
  ascending xs →
  simpson_rule (replicate (length xs) c) xs
  == c * (List.last xs 0 - List.hd 0 xs).
Proof.
  assert (Hle : (length xs ≤ length xs)%nat) by lia.
  revert Hle. generalize (length xs) at 2. intros n. revert xs.
  induction n as [n IH] using (well_founded_induction lt_wf).
  intros xs Hle Hasc.
  destruct xs as [|x0 [|x1 [|x2 [|x3 [|x4 xs]]]]].
  - red_lists. ring.
  - red_lists. ring.
  - red_lists. field.
  - red_lists. destruct Hasc as (H0 & H1 & _).
    rewrite simpson_panel_constant by lra. ring.
  - red_lists. destruct Hasc as (H0 & H1 & H2 & _).
    rewrite simpson_panel_constant, simpson_last_constant by lra. ring.
  - destruct Hasc as (H0 & H1 & Hasc).
    change (simpson_rule (replicate (length (x0 :: x1 :: x2 :: x3 :: x4 :: xs)) c)
              (x0 :: x1 :: x2 :: x3 :: x4 :: xs))
      with (simpson_panel c c c (x1 - x0) (x2 - x1)
            + simpson_rule (replicate (length (x2 :: x3 :: x4 :: xs)) c)
                (x2 :: x3 :: x4 :: xs)).
    rewrite simpson_panel_constant by lra.
    assert (Hlt : (length (x2 :: x3 :: x4 :: xs) < n)%nat)
      by (simpl in *; lia).
    rewrite (IH _ Hlt (x2 :: x3 :: x4 :: xs) (le_n _) Hasc).
    change (List.last (x0 :: x1 :: x2 :: x3 :: x4 :: xs) 0)
      with (List.last (x2 :: x3 :: x4 :: xs) 0).
    simpl List.hd. ring.
Qed.

(** C6.  [Ybar(kvals, Y)] is [2 * simpson(Y, X) / L]; for a quadrature that
    integrates the constant [c] exactly over the grid, and a grid that spans
    the length [L], [Ybar] of the constant array is [2 c]; and the default
    cytoplasmic quantities are [rho_A - psi * Ybar(A)] and
    [rho_P - psi * Ybar(P)]. *)
Theorem Ybar_constant_profile (simpson : list Q → list Q → Q) (kv : params)
    (c : Q) :
  simpson (replicate (length (X kv)) c) (X kv)
  == c * (List.last (X kv) 0 - List.hd 0 (X kv)) →
  List.last (X kv) 0 - List.hd 0 (X kv) == L kv →
  0 < L kv →
  (∀ Y, Ybar simpson kv Y = 2 * simpson Y (X kv) / L kv)
  ∧ Ybar simpson kv (replicate (length (X kv)) c) == 2 * c
  ∧ (∀ A, default_A_cyto simpson kv A
          = rho_A kv - psi kv * Ybar simpson kv A)
  ∧ (∀ P, default_P_cyto simpson kv P
          = rho_P kv - psi kv * Ybar simpson kv P).
Proof.
  intros Hexact Hspan HL. split; [reflexivity|]. split; [|split; reflexivity].
  unfold Ybar. rewrite Hexact, Hspan. field. lra.
Qed.

(** With the composite Simpson rule the hypothesis on the quadrature holds
    on every increasing grid. *)
Lemma Ybar_simpson_rule_constant (kv : params) (c : Q) :
  ascending (X kv) →
  List.last (X kv) 0 - List.hd 0 (X kv) == L kv → 0 < L kv →
  Ybar simpson_rule kv (replicate (length (X kv)) c) == 2 * c.
Proof.
  intros Hasc Hspan HL. unfold Ybar.
  rewrite simpson_rule_constant, Hspan by done. field. lra.
Qed.

(** On a grid that spans half of [L], as the default one does
    ([xL - x0 = 67.3], [L = 134.6]), [Ybar] of a constant is the constant. *)
Lemma Ybar_simpson_rule_half_domain (kv : params) (c : Q) :
  ascending (X kv) →
  List.last (X kv) 0 - List.hd 0 (X kv) == L kv / 2 → 0 < L kv →
  Ybar simpson_rule kv (replicate (length (X kv)) c) == c.
Proof.
  intros Hasc Hspan HL. unfold Ybar.
  rewrite simpson_rule_constant, Hspan by done. field. lra.
Qed.

(** ** The grid and the default initial condition *)

Lemma inject_Z_pos (z : Z) : (0 < z)%Z → 0 < inject_Z z.
Proof. intros Hz. unfold Qlt. simpl. lia. Qed.

Lemma linspace_spec (a b : Q) (n : Z) :
  (0 ≤ n)%Z →
  ∃ Xs, Np.linspace a b n = ret Xs ∧ len Xs = n
        ∧ (∀ i, (0 ≤ i < n - 1)%Z →
             item Xs i = inject_Z i * ((b - a) / inject_Z (n - 1)) + a)
        ∧ ((2 ≤ n)%Z → item Xs (n - 1) = b).
Proof.
  intros Hn. unfold Np.linspace.
  destruct (Z.ltb_spec n 0); [lia|].
  set (y := (λ i : nat, inject_Z (Z.of_nat i)
                        * ((b - a) / inject_Z (n - 1)) + a)
            <$> seq 0 (Z.to_nat n)).
  assert (Hy : length y = Z.to_nat n)
    by (unfold y; rewrite length_fmap, length_seq; lia).
  assert (Hyi : ∀ i, (0 ≤ i < n)%Z →
            y !! Z.to_nat i
            = Some (inject_Z i * ((b - a) / inject_Z (n - 1)) + a)).
  { intros i Hi. unfold y. rewrite list_lookup_fmap, lookup_seq_lt by lia.
    simpl. rewrite Z2Nat.id by lia. reflexivity. }
  eexists. split; [reflexivity|]. split; [|split].
  - unfold len. destruct (1 <? n)%Z; rewrite ?length_insert; lia.
  - intros i Hi. unfold item. apply nth_lookup_Some.
    destruct (Z.ltb_spec 1 n); [|lia].
    rewrite list_lookup_insert_ne by lia. apply Hyi. lia.
  - intros H2. unfold item. apply nth_lookup_Some.
    destruct (Z.ltb_spec 1 n); [|lia].
    replace (Z.to_nat (n - 1)) with (pred (Z.to_nat n)) by lia.
    apply list_lookup_insert_eq. lia.
Qed.

(** The grid of at least two nodes over [[a, b]] with [a < b]. *)
Lemma linspace_grid (a b : Q) (n : Z) (Xs : list Q) :
  (2 ≤ n)%Z → a < b → Np.linspace a b n = ret Xs →
  len Xs = n ∧ item Xs 0 == a ∧ item Xs (n - 1) == b
  ∧ ∀ i, (0 ≤ i < n - 1)%Z →
      item Xs i < item Xs (i + 1)
      ∧ item Xs (i + 1) - item Xs i == (b - a) / inject_Z (n - 1).
Proof.
  intros Hn Hab Heq.
  destruct (linspace_spec a b n) as (Xs' & Heq' & Hlen & Hi & Hlast); [lia|].
  rewrite Heq in Heq'. injection Heq' as <-.
  assert (Hd : 0 < inject_Z (n - 1)) by (apply inject_Z_pos; lia).
  assert (Hstep : 0 < (b - a) / inject_Z (n - 1)).
  { apply Qlt_shift_div_l; [done|]. lra. }
  assert (Hdiff : ∀ i, (0 ≤ i < n - 1)%Z →
            item Xs (i + 1) - item Xs i == (b - a) / inject_Z (n - 1)).
  { intros i Hr. rewrite (Hi i) by lia.
    destruct (decide (i + 1 = n - 1)%Z) as [E|E].
    - rewrite E, Hlast by lia. revert Hd. rewrite <- E, inject_Z_plus.
      change (inject_Z 1) with 1. generalize (inject_Z i). intros q Hq.
      field. lra.
    - rewrite (Hi (i + 1)%Z) by lia. rewrite inject_Z_plus.
      change (inject_Z 1) with 1. ring. }
  split; [done|]. split; [|split].
  - rewrite Hi by lia. change (inject_Z 0) with 0. ring.
  - rewrite Hlast by lia. reflexivity.
  - intros i Hr. split; [|by apply Hdiff].
    specialize (Hdiff i Hr). lra.
Qed.

Lemma default_initial_condition (n : Z) :
  Np.ravel_F ((λ _, [0.5; 0.0]) <$> Np.arange 0 n)
  = replicate (Z.to_nat n) 0.5 ++ replicate (Z.to_nat n) 0.0.
Proof.
  unfold Np.arange, Np.ravel_F. rewrite Z.sub_0_r.
  rewrite (const_fmap (λ _ : Z, [0.5; 0.0]) (seqZ 0 n) [0.5; 0.0])
    by reflexivity.
  rewrite length_seqZ.
  destruct (Z.to_nat n) as [|k] eqn:E; [reflexivity|].
  cbn [replicate length seq fmap list_fmap mjoin list_join].
  rewrite !fmap_replicate, app_nil_r. reflexivity.
Qed.

(** ** The driver *)

Ltac unfold_driver :=
  cbv beta iota zeta delta
    [run_model run_model_setup mbind D_bind load alloc lift assign mret D_ret].

Lemma D_bind_run {A B} (m : D A) (f : A → D B) (σ : store) :
  (m ≫= f) σ
  = match m σ with
    | (inl e, σ') => (inl e, σ')
    | (inr a, σ') => f a σ'
    end.
Proof. reflexivity. Qed.

(** The objects that exist before the set-up are the same after it, and the
    mapping it returns is a new one. *)
Lemma run_model_setup_frame (args l : loc) (σ : store) :
  l ∈ dom σ →
  snd (run_model_setup args σ) !! l = σ !! l
  ∧ ∀ kvals, fst (run_model_setup args σ) = inr kvals → kvals ≠ l.
Proof.
  intros Hl.
  pose proof (is_fresh (dom σ)) as Hf1.
  set (l1 := fresh (dom σ)) in *.
  assert (Hne1 : l1 ≠ l) by (intros ->; done).
  unfold_driver. fold l1.
  set (σ1 := <[l1 := _]> σ).
  assert (H1 : σ1 !! l = σ !! l) by (unfold σ1; by rewrite lookup_insert_ne).
  assert (Hl1 : l ∈ dom σ1) by (unfold σ1; set_solver).
  pose proof (is_fresh (dom σ1)) as Hf2.
  set (l2 := fresh (dom σ1)) in *.
  assert (Hne2 : l2 ≠ l) by (intros ->; done).
  repeat case_match; simplify_eq/=; (split; [|by intros ? [= <-]]);
    rewrite ?lookup_alter_ne, ?lookup_insert_ne by done; done.
Qed.

Lemma run_model_store (solve_ivp : integrator) (args : loc) (σ : store) :
  snd (run_model solve_ivp args σ) = snd (run_model_setup args σ)
  ∧ ∀ sol kvals, fst (run_model solve_ivp args σ) = inr (sol, kvals) →
      fst (run_model_setup args σ) = inr kvals.
Proof.
  unfold run_model. rewrite D_bind_run.
  destruct (run_model_setup args σ) as [[e|l] σ']; [done|].
  cbv beta iota zeta delta [mbind D_bind load lift mret D_ret].
  repeat case_match; simplify_eq/=; (split; [done|]); by intros ? ? [= <- <-].
Qed.

(** C10.  A call of [run_model] leaves the global [DEFAULT_PARAMETERS] and
    the caller's [args] with the entries they had: the merged [params] and
    the derived [kvals] are new mappings. *)
Theorem run_model_preserves_mappings (solve_ivp : integrator) (args : loc)
    (σ : store) (defaults overrides : dict) :
  σ !! DEFAULT_PARAMETERS = Some defaults →
  σ !! args = Some overrides →
  snd (run_model solve_ivp args σ) !! DEFAULT_PARAMETERS = Some defaults
  ∧ snd (run_model solve_ivp args σ) !! args = Some overrides
  ∧ ∀ sol kvals, fst (run_model solve_ivp args σ) = inr (sol, kvals) →
      kvals ≠ DEFAULT_PARAMETERS ∧ kvals ≠ args.
Proof.
  intros Hd Ha.
  assert (HdD : DEFAULT_PARAMETERS ∈ dom σ) by (apply elem_of_dom; eauto).
  assert (HdA : args ∈ dom σ) by (apply elem_of_dom; eauto).
  destruct (run_model_store solve_ivp args σ) as [-> Hk].
  destruct (run_model_setup_frame args _ σ HdD) as [-> HfD].
  destruct (run_model_setup_frame args _ σ HdA) as [-> HfA].
  split; [done|]. split; [done|].
  intros sol kvals Hr%Hk. split; [by apply HfD | by apply HfA].
Qed.

Lemma int_nonneg (q : Q) : 0 <= q → (0 ≤ int q)%Z.
Proof.
  intros Hq. unfold int. apply Z.quot_pos; [|lia].
  unfold Qle in Hq. simpl in Hq. lia.
Qed.

(** What the set-up does on a configuration with typed bounds, at least two
    nodes and a non-negative sampling rate: it fails nowhere. *)
Lemma run_model_setup_succeeds (args : loc) (σ : store) (a b : Q) (n : Z) :
  let m := merged σ args in
  entry m "x0" as_float = inr a →
  entry m "xL" as_float = inr b →
  entry m "Nx" as_int = inr n →
  (2 ≤ n)%Z →
  (is_Some (m !! "t_eval")
   ∨ ∃ t0v tLv pps, entry m "t0" as_float = inr t0v
       ∧ entry m "tL" as_float = inr tLv
       ∧ entry m "points_per_second" as_float = inr pps
       ∧ 0 <= pps) →
  ∃ Xs te ic kvals σ',
    run_model_setup args σ = (inr kvals, σ')
    ∧ Np.linspace a b n = ret Xs
    ∧ σ' !! kvals
      = Some (<["initial_condition" := ic]>
                (<["t_eval" := te]>
                   (<["deltax" := VFloat (Qabs (item Xs 1 - item Xs 0))]>
                      (<["X" := VArray Xs]> m))))
    ∧ (m !! "initial_condition" = None →
       ic = VArray (replicate (Z.to_nat n) 0.5
                    ++ replicate (Z.to_nat n) 0.0))
    ∧ (∀ v, m !! "initial_condition" = Some v → ic = v)
    ∧ (∀ v, m !! "t_eval" = Some v → te = v)
    ∧ (m !! "t_eval" = None → ∃ ts, te = VArray ts).
Proof.
  intros m Hx0 HxL HNx Hn Ht.
  destruct (linspace_spec a b n) as (Xs & HXs & Hlen & _); [lia|].
  exists Xs.
  unfold_driver. fold (merged σ args). fold m.
  set (l1 := fresh (dom σ)). set (σ1 := <[l1 := m]> σ).
  replace (σ1 !! l1) with (Some m) by (symmetry; apply lookup_insert_eq).
  cbn [default from_option id]. rewrite Hx0, HxL, HNx, HXs.
  cbn [outcome fst ret]. rewrite !getitem_in_range by lia.
  cbn [outcome fst mret M_ret ret].
  set (kv := <["deltax" := _]> (<["X" := _]> m)).
  set (l2 := fresh (dom σ1)).
  replace (<[l2 := kv]> σ1 !! l2) with (Some kv)
    by (symmetry; apply lookup_insert_eq).
  cbn [default from_option id].
  assert (Hkv : ∀ k, k ≠ "deltax" → k ≠ "X" → kv !! k = m !! k).
  { intros k H1 H2. unfold kv. by rewrite !lookup_insert_ne. }
  assert (Hent : ∀ {A} k (f : value → exn + A), k ≠ "deltax" → k ≠ "X" →
            entry kv k f = entry m k f).
  { intros A k f H1 H2. unfold entry, subscript. by rewrite Hkv. }
  rewrite (Hkv "t_eval") by done.
  assert (Hic : ∀ te : value, ∃ ic,
    (∀ σ0 : store,
       (match <["t_eval" := te]> kv !! "initial_condition" with
        | Some v => λ σ0 : store, (inr v, σ0)
        | None => λ σ0 : store,
            match entry (<["t_eval" := te]> kv) "Nx" as_int with
            | inl e => (inl e, σ0)
            | inr Nx =>
                (inr (VArray (Np.ravel_F
                                (fmap (M := list) (λ _ : Z, [0.5; 0.0])
                                   (Np.arange 0 Nx)))), σ0)
            end
        end) σ0 = (inr ic, σ0))
    ∧ (m !! "initial_condition" = None →
       ic = VArray (replicate (Z.to_nat n) 0.5
                    ++ replicate (Z.to_nat n) 0.0))
    ∧ (∀ v, m !! "initial_condition" = Some v → ic = v)).
  { intros te. rewrite lookup_insert_ne, (Hkv "initial_condition") by done.
    destruct (m !! "initial_condition") as [v|] eqn:Eic.
    - exists v. split; [done|]. split; [done|]. by intros ? [= <-].
    - unfold entry at 1, subscript. rewrite lookup_insert_ne, Hkv by done.
      fold (subscript m "Nx"). fold (entry m "Nx" as_int). rewrite HNx.
      rewrite default_initial_condition. eexists. split; [done|].
      split; [done|]. intros ? [=]. }
  destruct (m !! "t_eval") as [v|] eqn:Ev.
  - exists v. destruct (Hic v) as (ic & Hrun & Hic1 & Hic2). exists ic, l2.
    rewrite alter_insert_eq, lookup_insert_eq. cbn [default from_option id].
    rewrite Hrun. eexists. split; [reflexivity|]. split; [done|].
    rewrite alter_insert_eq, lookup_insert_eq.
    split; [done|]. split; [done|]. split; [done|].
    split; [by intros ? [= <-]|done].
  - destruct Ht as [[? [=]]|(t0v & tLv & pps & H0 & HL & Hp & Hpos)].
    rewrite !Hent, H0, HL, Hp by done.
    destruct (linspace_spec t0v tLv (int (pps * Qabs (tLv - t0v))))
      as (ts & -> & _).
    { apply int_nonneg. apply Qmult_le_0_compat; [done|apply Qabs_nonneg]. }
    cbn [outcome fst ret].
    exists (VArray ts).
    destruct (Hic (VArray ts)) as (ic & Hrun & Hic1 & Hic2). exists ic, l2.
    rewrite alter_insert_eq, lookup_insert_eq. cbn [default from_option id].
    rewrite Hrun. eexists. split; [reflexivity|]. split; [done|].
    rewrite alter_insert_eq, lookup_insert_eq.
    split; [done|]. split; [done|]. split; [done|].
    split; [done|eauto].
Qed.

Lemma typed_config_setup (m : dict) (a b : Q) (n : Z) (t0v tLv pps : Q) :
  typed_config m a b n t0v tLv pps → 0 <= pps →
  is_Some (m !! "t_eval")
  ∨ ∃ t0v tLv pps, entry m "t0" as_float = inr t0v
      ∧ entry m "tL" as_float = inr tLv
      ∧ entry m "points_per_second" as_float = inr pps
      ∧ 0 <= pps.
Proof.
  intros (_ & _ & _ & H0 & HL & Hp & _) Hpos. right. eauto 10.
Qed.

(** C7.  For a configuration with [Nx >= 3] and [xL > x0], the driver
    stores under ["X"] a grid of exactly [Nx] points, strictly increasing,
    equally spaced, from [x0] to [xL], and under ["deltax"] the value
    [|X[1] - X[0]|]. *)
Theorem run_model_grid (args : loc) (σ : store) (a b : Q) (n : Z)
    (t0v tLv pps : Q) :
  typed_config (merged σ args) a b n t0v tLv pps → 0 <= pps →
  (3 ≤ n)%Z → a < b →
  ∃ Xs kvals σ' kv,
    run_model_setup args σ = (inr kvals, σ')
    ∧ σ' !! kvals = Some kv
    ∧ kv !! "X" = Some (VArray Xs)
    ∧ kv !! "deltax" = Some (VFloat (Qabs (item Xs 1 - item Xs 0)))
    ∧ len Xs = n
    ∧ item Xs 0 == a
    ∧ item Xs (n - 1) == b
    ∧ ∀ i, (0 ≤ i < n - 1)%Z →
        item Xs i < item Xs (i + 1)
        ∧ item Xs (i + 1) - item Xs i == (b - a) / inject_Z (n - 1).
Proof.
  intros Hty Hpos Hn Hab.
  pose proof (typed_config_setup _ _ _ _ _ _ _ Hty Hpos) as Ht.
  destruct Hty as (Hx0 & HxL & HNx & _).
  destruct (run_model_setup_succeeds args σ a b n Hx0 HxL HNx
              ltac:(lia) Ht)
    as (Xs & te & ic & kvals & σ' & Hrun & HXs & Hkv & _).
  destruct (linspace_grid a b n Xs ltac:(lia) Hab HXs)
    as (Hlen & Hfirst & Hlast & Hsteps).
  exists Xs, kvals, σ'. eexists. split; [exact Hrun|]. split; [exact Hkv|].
  split; [by rewrite !lookup_insert_ne, lookup_insert_eq by done|].
  split; [by rewrite !lookup_insert_ne, lookup_insert_eq by done|].
  done.
Qed.

(** C8.  Without an ["initial_condition"] among the entries, the driver
    stores as initial condition the vector of length [2 Nx] whose first
    [Nx] components are [0.5] and whose last [Nx] components are [0.0]. *)
Theorem run_model_default_initial_condition (args : loc) (σ : store)
    (a b : Q) (n : Z) (t0v tLv pps : Q) :
  typed_config (merged σ args) a b n t0v tLv pps → 0 <= pps →
  (2 ≤ n)%Z →
  merged σ args !! "initial_condition" = None →
  ∃ y0 kvals σ' kv,
    run_model_setup args σ = (inr kvals, σ')
    ∧ σ' !! kvals = Some kv
    ∧ kv !! "initial_condition" = Some (VArray y0)
    ∧ y0 = Np.ravel_F ((λ _, [0.5; 0.0]) <$> Np.arange 0 n)
    ∧ len y0 = (2 * n)%Z
    ∧ slice_to y0 n = replicate (Z.to_nat n) 0.5
    ∧ slice_from y0 n = replicate (Z.to_nat n) 0.0
    ∧ ∀ i, (0 ≤ i < n)%Z → item y0 i = 0.5 ∧ item y0 (n + i) = 0.0.
Proof.
  intros Hty Hpos Hn Hnone.
  pose proof (typed_config_setup _ _ _ _ _ _ _ Hty Hpos) as Ht.
  destruct Hty as (Hx0 & HxL & HNx & _).
  destruct (run_model_setup_succeeds args σ a b n Hx0 HxL HNx Hn Ht)
    as (Xs & te & ic & kvals & σ' & Hrun & HXs & Hkv & Hic & _).
  rewrite (Hic Hnone) in Hkv.
  eexists _, kvals, σ', _. split; [exact Hrun|]. split; [exact Hkv|].
  split; [by rewrite lookup_insert_eq|].
  split; [by rewrite default_initial_condition|].
  assert (Hl : len (replicate (Z.to_nat n) 0.5) = n)
    by (unfold len; rewrite length_replicate; lia).
  destruct (slices_of_blocks (replicate (Z.to_nat n) 0.5)
              (replicate (Z.to_nat n) 0.0)) as [Hs1 Hs2].
  rewrite Hl in Hs1, Hs2.
  split; [unfold len; rewrite length_app, !length_replicate; lia|].
  split; [exact Hs1|]. split; [exact Hs2|].
  intros i Hi. split.
  - rewrite item_app_l by lia. unfold item. apply nth_lookup_Some.
    apply lookup_replicate_2. lia.
  - replace (n + i)%Z
      with (len (replicate (Z.to_nat n) (0.5 : Q)) + i)%Z
      by (by rewrite Hl).
    rewrite item_app_r by lia. unfold item.
    apply nth_lookup_Some. apply lookup_replicate_2. lia.
Qed.




(** ** The theorems at work on the small configurations *)


Lemma disc_diffusion_term_reflective_witness :
  len [1; 2; 4] = Nx three_nodes_default
  ∧ (3 ≤ Nx three_nodes_default)%Z
  ∧ 0 < deltax three_nodes_default
  ∧ disc_diffusion_term three_nodes_default [1; 2; 4] 0
    = mret ((item [1; 2; 4] 1 - 2 * item [1; 2; 4] 0 + item [1; 2; 4] 1)
            / deltax three_nodes_default ^ 2).
Proof.
  split; [reflexivity|]. split; [(cbn; lia)|]. split; [reflexivity|].
  destruct (disc_diffusion_term_reflective three_nodes_default [1; 2; 4])
    as (_ & H & _); [reflexivity | (cbn; lia) | reflexivity | exact H].
Defined.


Lemma odefunc_conserves_trapezoid_mass_witness :
  zero_rates pure_diffusion ∧ zero_velocity pure_diffusion
  ∧ len [1; 0; 0; 0; 0; 0] = (2 * Nx pure_diffusion)%Z
  ∧ (2 ≤ Nx pure_diffusion)%Z
  ∧ len (X pure_diffusion) = Nx pure_diffusion
  ∧ 0 < deltax pure_diffusion
  ∧ in_range [1; 0; 0; 0; 0; 0]
  ∧ ∃ dudt,
      outcome (odefunc 0 [1; 0; 0; 0; 0; 0] pure_diffusion) = inr dudt
      ∧ trapezoid_mass 3 (slice_to dudt 3) == 0.
Proof.
  assert (Hz : zero_rates pure_diffusion) by (repeat split; reflexivity).
  assert (Hv : zero_velocity pure_diffusion) by (intros x t; reflexivity).
  assert (Hr : in_range [1; 0; 0; 0; 0; 0])
    by (apply diverges_false; reflexivity).
  split; [exact Hz|]. split; [exact Hv|]. split; [reflexivity|].
  split; [(cbn; lia)|]. split; [reflexivity|]. split; [reflexivity|].
  split; [exact Hr|].
  destruct (odefunc_conserves_trapezoid_mass 0 [1; 0; 0; 0; 0; 0]
              pure_diffusion Hz Hv)
    as (dudt & H & HA & _);
    [reflexivity | (cbn; lia) | reflexivity | reflexivity | exact Hr |].
  exists dudt. split; [exact H | exact HA].
Defined.

Lemma odefunc_reaction_witness :
  len [1; 0; 0; 0; 0; 0] = (2 * Nx three_nodes_default)%Z
  ∧ (2 ≤ Nx three_nodes_default)%Z
  ∧ len (X three_nodes_default) = Nx three_nodes_default
  ∧ in_range [1; 0; 0; 0; 0; 0]
  ∧ count_A_cyto (trace (odefunc 0 [1; 0; 0; 0; 0; 0] three_nodes_default))
    = 1%nat
  ∧ count_P_cyto (trace (odefunc 0 [1; 0; 0; 0; 0; 0] three_nodes_default))
    = 1%nat.
Proof.
  assert (Hr : in_range [1; 0; 0; 0; 0; 0])
    by (apply diverges_false; reflexivity).
  split; [reflexivity|]. split; [(cbn; lia)|]. split; [reflexivity|].
  split; [exact Hr|].
  destruct (odefunc_reaction 0 [1; 0; 0; 0; 0; 0] three_nodes_default)
    as (HA & HP & _); [reflexivity | (cbn; lia) | reflexivity | exact Hr |].
  split; [exact HA | exact HP].
Defined.

Lemma Ybar_constant_profile_witness :
  simpson_rule (replicate (length (X three_nodes)) 3) (X three_nodes)
  == 3 * (List.last (X three_nodes) 0 - List.hd 0 (X three_nodes))
  ∧ List.last (X three_nodes) 0 - List.hd 0 (X three_nodes) == L three_nodes
  ∧ 0 < L three_nodes
  ∧ Ybar simpson_rule three_nodes (replicate (length (X three_nodes)) 3)
    == 2 * 3.
Proof.
  split; [reflexivity|]. split; [reflexivity|]. split; [reflexivity|].
  apply (Ybar_constant_profile simpson_rule three_nodes 3);
    reflexivity.
Defined.

Lemma four_nodes_typed :
  typed_config (merged (module_store four_nodes) 2%positive)
    0 67.3 4 0 1 2.
Proof.
  repeat split; try (vm_compute; reflexivity);
    intros v Hv; vm_compute in Hv; discriminate.
Defined.

Lemma run_model_grid_witness :
  typed_config (merged (module_store four_nodes) 2%positive) 0 67.3 4 0 1 2
  ∧ 0 <= 2 ∧ (3 ≤ 4)%Z ∧ 0 < 67.3
  ∧ ∃ Xs kvals σ' kv,
      run_model_setup 2%positive (module_store four_nodes) = (inr kvals, σ')
      ∧ σ' !! kvals = Some kv
      ∧ kv !! "X" = Some (VArray Xs)
      ∧ len Xs = 4%Z.
Proof.
  split; [exact four_nodes_typed|].
  split; [discriminate|]. split; [(cbn; lia)|]. split; [reflexivity|].
  destruct (run_model_grid 2%positive (module_store four_nodes)
              0 67.3 4 0 1 2 four_nodes_typed)
    as (Xs & kvals & σ' & kv & H1 & H2 & H3 & _ & H5 & _);
    [discriminate | (cbn; lia) | reflexivity |].
  exists Xs, kvals, σ', kv. repeat split; assumption.
Defined.

Lemma run_model_default_initial_condition_witness :
  typed_config (merged (module_store four_nodes) 2%positive) 0 67.3 4 0 1 2
  ∧ 0 <= 2 ∧ (2 ≤ 4)%Z
  ∧ merged (module_store four_nodes) 2%positive !! "initial_condition" = None
  ∧ ∃ y0 kvals σ' kv,
      run_model_setup 2%positive (module_store four_nodes) = (inr kvals, σ')
      ∧ σ' !! kvals = Some kv
      ∧ kv !! "initial_condition" = Some (VArray y0)
      ∧ slice_to y0 4 = [0.5; 0.5; 0.5; 0.5]
      ∧ slice_from y0 4 = [0.0; 0.0; 0.0; 0.0].
Proof.
  split; [exact four_nodes_typed|].
  split; [discriminate|]. split; [(cbn; lia)|]. split; [vm_compute; reflexivity|].
  destruct (run_model_default_initial_condition 2%positive
              (module_store four_nodes) 0 67.3 4 0 1 2 four_nodes_typed)
    as (y0 & kvals & σ' & kv & H1 & H2 & H3 & _ & _ & H6 & H7 & _);
    [discriminate | (cbn; lia) | vm_compute; reflexivity |].
  exists y0, kvals, σ', kv. repeat split; assumption.
Defined.

Lemma reversed_bounds_typed :
  typed_config (merged (module_store reversed_bounds) 2%positive)
    0 (-1) 2 0 (-1) 2.
Proof.
  repeat split; try (vm_compute; reflexivity);
    intros v Hv; vm_compute in Hv; discriminate.
Defined.


Lemma run_model_preserves_mappings_witness :
  module_store four_nodes !! DEFAULT_PARAMETERS
  = Some (DEFAULT_PARAMETERS_init simpson_rule)
  ∧ module_store four_nodes !! 2%positive = Some four_nodes
  ∧ snd (run_model first_step 2%positive (module_store four_nodes))
    !! DEFAULT_PARAMETERS
    = Some (DEFAULT_PARAMETERS_init simpson_rule)
  ∧ snd (run_model first_step 2%positive (module_store four_nodes))
    !! 2%positive
    = Some four_nodes.
Proof.
  assert (H1 : module_store four_nodes !! DEFAULT_PARAMETERS
               = Some (DEFAULT_PARAMETERS_init simpson_rule))
    by reflexivity.
  assert (H2 : module_store four_nodes !! 2%positive = Some four_nodes)
    by reflexivity.
  split; [exact H1|]. split; [exact H2|].
  destruct (run_model_preserves_mappings first_step 2%positive
              (module_store four_nodes) _ _ H1 H2) as (Hd & Ha & _).
  split; [exact Hd | exact Ha].
Defined.

(** ** Further properties of the right-hand side *)

(** A state vector of the wrong length is refused before anything is
    computed, printed or called. *)
Theorem odefunc_length_mismatch (t : Q) (U : list Q) (kv : kvals) :
  len U ≠ (2 * Nx kv)%Z → odefunc t U kv = (inl AssertionError, []).
Proof.
  intros HU. unfold odefunc.
  destruct (Z.eqb_spec (len U) (2 * Nx kv)); [done|]. reflexivity.
Qed.


(** Behind a NaN in first position the divergence check is switched off:
    whatever the other components, on two nodes or more the right-hand side
    raises nothing and returns a vector of the length of the state. *)
Theorem odefunc_leading_nan (t : Q) (U : list Nan.float) (kv : Nan.kvals) :
  len U = (2 * Nx kv)%Z → (2 ≤ Nx kv)%Z → len (X kv) = Nx kv →
  head U = Some Nan.nan →
  ∃ dudt, Nan.outcome (Nan.odefunc t U kv) = inr dudt ∧ len dudt = len U.
Proof.
  intros HU HN HX Hhead.
  assert (Hd : test_fires U = false) by (by destruct U as [|[q|] U']).
  destruct (float_odefunc_passed t U kv HU HN HX Hd) as (dudt & l & -> & Hl).
  by exists dudt.
Qed.

(** The derivative has the length of the state. *)
Theorem odefunc_same_length (t : Q) (U : list Q) (kv : kvals) :
  len U = (2 * Nx kv)%Z → (2 ≤ Nx kv)%Z → len (X kv) = Nx kv →
  in_range U →
  ∃ dudt, outcome (odefunc t U kv) = inr dudt ∧ len dudt = len U.
Proof.
  intros HU HN HX Hr.
  destruct (odefunc_in_range t U kv HU HN HX Hr) as (vs & -> & _).
  eexists. split; [reflexivity|].
  unfold len in *. rewrite length_app, !length_fmap, !length_seqZ. lia.
Qed.

Lemma disc_diffusion_term_single_node (kv : kvals) (Y : list Q) :
  Nx kv = 1%Z → len Y = 1%Z →
  disc_diffusion_term kv Y (Nx kv - 1) = raise IndexError.
Proof.
  intros HN HY. unfold disc_diffusion_term, getitem.
  rewrite HN, HY. reflexivity.
Qed.

(** Fewer than two nodes.  With no node the built-in [min] fails on the
    empty vector; with one node the left-boundary formula, which takes
    precedence at node 0, reads [A[1]] after both cytoplasmic capabilities
    have been called. *)
Theorem odefunc_few_nodes (t : Q) (U : list Q) (kv : kvals) :
  (Nx kv = 0%Z → len U = 0%Z → odefunc t U kv = (inl ValueError, []))
  ∧ (Nx kv = 1%Z → len U = 2%Z → in_range U →
     odefunc t U kv
     = (inl IndexError,
        [EvA_cyto (slice_to U 1); EvP_cyto (slice_from U 1)])).
Proof.
  split.
  - intros HN HU. destruct U; [|discriminate].
    unfold odefunc. rewrite HN. reflexivity.
  - intros HN HU Hr%diverges_false.
    assert (HU' : len U = (2 * Nx kv)%Z) by lia.
    destruct (slice_lengths U (Nx kv) HU') as [HA HP].
    unfold odefunc.
    replace (len U =? 2 * Nx kv)%Z with true by lia.
    unfold assert. rewrite ret_bind.
    rewrite divergence_test by (intros ->; discriminate).
    rewrite Hr. unfold Np.zeros.
    replace (Nx kv <? 0)%Z with false by lia. rewrite !ret_bind.
    change (call_A_cyto kv (slice_to U (Nx kv)))
      with ((inr (A_cyto kv kv (slice_to U (Nx kv))),
             [EvA_cyto (slice_to U (Nx kv))]) : M Q).
    change (call_P_cyto kv (slice_from U (Nx kv)))
      with ((inr (P_cyto kv kv (slice_from U (Nx kv))),
             [EvP_cyto (slice_from U (Nx kv))]) : M Q).
    rewrite !bind_inr. cbn [outcome trace fst snd].
    rewrite (disc_diffusion_term_single_node kv (slice_to U (Nx kv)))
      by lia.
    rewrite HN. reflexivity.
Qed.

Lemma item_replicate (n : nat) (c : Q) (i : Z) :
  (0 ≤ i < Z.of_nat n)%Z → item (replicate n c) i = c.
Proof.
  intros Hi. unfold item. apply nth_lookup_Some, lookup_replicate_2. lia.
Qed.

Lemma reflected_replicate (n : Z) (c : Q) (i : Z) :
  (2 ≤ n)%Z → (-1 ≤ i ≤ n)%Z →
  reflected n (replicate (Z.to_nat n) c) i = c.
Proof.
  intros Hn Hi. unfold reflected.
  decide_nodes; apply item_replicate; lia.
Qed.

Lemma diffusion_at_uniform (kv : kvals) (c : Q) (i : Z) :
  (2 ≤ Nx kv)%Z → (0 ≤ i ≤ Nx kv - 1)%Z →
  diffusion_at kv (replicate (Z.to_nat (Nx kv)) c) i == 0.
Proof.
  intros HN Hi. unfold diffusion_at, second_difference.
  rewrite !reflected_replicate by lia. unfold Qdiv. ring.
Qed.

(** A spatially uniform profile does not diffuse: the diffusion term
    vanishes at every node, the two reflecting ends included. *)
Theorem disc_diffusion_term_uniform (kv : kvals) (c : Q) (i : Z) :
  (2 ≤ Nx kv)%Z → 0 < deltax kv → (0 ≤ i ≤ Nx kv - 1)%Z →
  ∃ d, disc_diffusion_term kv (replicate (Z.to_nat (Nx kv)) c) i = mret d
       ∧ d == 0.
Proof.
  intros HN Hh Hi. eexists. split.
  - apply disc_diffusion_term_spec; [|done|done].
    unfold len. rewrite length_replicate. lia.
  - by apply diffusion_at_uniform.
Qed.

(** A spatially uniform state in a medium at rest stays uniform: every node
    of A moves at the rate of the A reaction at the uniform values, every
    node of P at the rate of the P reaction. *)
Theorem odefunc_uniform_state (t : Q) (a p : Q) (kv : kvals) :
  let n := Z.to_nat (Nx kv) in
  let A := replicate n a in
  let P := replicate n p in
  zero_velocity kv → (2 ≤ Nx kv)%Z → len (X kv) = Nx kv → 0 < deltax kv →
  in_range (A ++ P) →
  ∃ dudt, outcome (odefunc t (A ++ P) kv) = inr dudt ∧
    ∀ i, (0 ≤ i < Nx kv)%Z →
      item dudt i
      == k_onA kv * A_cyto kv kv A - k_offA kv * a
         - k_AP kv * (p ^ alpha kv) * a
      ∧ item dudt (Nx kv + i)
        == k_onP kv * P_cyto kv kv P - k_offP kv * p
           - k_PA kv * (a ^ beta kv) * p.
Proof.
  intros n A P Hv HN HX Hh Hr.
  assert (HlA : len A = Nx kv)
    by (unfold len, A, n; rewrite length_replicate; lia).
  assert (HU : len (A ++ P) = (2 * Nx kv)%Z).
  { unfold len, A, P, n. rewrite length_app, !length_replicate. lia. }
  destruct (odefunc_in_range t (A ++ P) kv HU HN HX Hr) as (vs & -> & _).
  destruct (slices_of_blocks A P) as [HsA HsP].
  rewrite HlA in HsA, HsP. rewrite HsA, HsP.
  eexists. split; [reflexivity|]. intros i Hi.
  destruct (item_blocks (dudt_A_at kv t A P) (dudt_P_at kv t A P)
              (Nx kv) i Hi) as [-> ->].
  assert (Hadv : ∀ Y j, advection_at kv t Y j == 0).
  { assert (Hv0 : ∀ j, velocity_at kv t j == 0) by (intros j; apply Hv).
    intros Y j. unfold advection_at, flux_at.
    destruct (j =? Nx kv - 1)%Z; rewrite !Hv0; unfold Qdiv; ring. }
  unfold dudt_A_at, dudt_P_at, reaction_A_at, reaction_P_at.
  rewrite !Hadv. unfold A, P, n.
  rewrite !diffusion_at_uniform by lia.
  rewrite !item_replicate by lia. split; ring.
Qed.

(** The driver's default initial condition is a state the right-hand side
    accepts: it is within bounds and of the right length. *)
Theorem odefunc_accepts_default_initial_condition (t : Q) (kv : kvals) :
  (2 ≤ Nx kv)%Z → len (X kv) = Nx kv →
  ∃ dudt,
    outcome (odefunc t (Np.ravel_F ((λ _, [0.5; 0.0])
                                    <$> Np.arange 0 (Nx kv))) kv)
    = inr dudt.
Proof.
  intros HN HX. rewrite default_initial_condition.
  destruct (odefunc_in_range t
              (replicate (Z.to_nat (Nx kv)) 0.5
               ++ replicate (Z.to_nat (Nx kv)) 0.0) kv)
    as (vs & -> & _); [| done | done | | eauto].
  - unfold len. rewrite length_app, !length_replicate. lia.
  - intros u [Hu|Hu]%elem_of_app; apply elem_of_replicate in Hu as [-> _];
      split; discriminate.
Qed.

Lemma getitem_out_of_range (Y : list Q) (i : Z) :
  (len Y ≤ i)%Z → getitem Y i = raise IndexError.
Proof.
  intros Hi. unfold getitem, len in *.
  replace (i <? 0)%Z with false by lia.
  replace ((0 <=? i) && (i <? Z.of_nat (length Y)))%Z with false by lia.
  reflexivity.
Qed.

(** The forward difference of the flux cannot be taken at the last node: it
    reads [X[Nx]], which does not exist, before any velocity is called. *)
Theorem disc_spatial_derivative_last_node (kv : kvals) (Y : list Q) (t : Q) :
  len (X kv) = Nx kv →
  disc_spatial_derivative kv (flux kv Y t) (Nx kv - 1)
  = (inl IndexError, []).
Proof.
  intros HX. unfold disc_spatial_derivative, flux.
  replace (Nx kv - 1 + 1)%Z with (Nx kv) by lia.
  rewrite (getitem_out_of_range (X kv) (Nx kv)) by lia.
  reflexivity.
Qed.

(** ** Counting the calls of an evaluation *)

Lemma costs_ret {A} (a : A) (I : A → Prop) : I a → costs (mret a) I 0.
Proof. intros Ha. by exists a, []. Qed.

Lemma costs_bind {A B} (m : M A) (f : A → M B) (I : A → Prop)
    (J : B → Prop) (n1 n2 : nat) :
  costs m I n1 → (∀ a, I a → costs (f a) J n2) →
  costs (m ≫= f) J (n1 + n2).
Proof.
  intros (a & l1 & -> & Ha & H1) Hf.
  destruct (Hf a Ha) as (b & l2 & Hfa & Hb & H2).
  exists b, (l1 ++ l2). split.
  - rewrite bind_inr, Hfa. reflexivity.
  - split; [done|]. rewrite length_app. lia.
Qed.

Lemma costs_eq_ret {A} (m : M A) (a : A) : m = mret a → costs m (λ _, True) 0.
Proof. intros ->. by apply costs_ret. Qed.

Lemma costs_setitem (Y : list Q) (i : Z) (v : Q) :
  (0 ≤ i < len Y)%Z →
  costs (setitem Y i v) (λ Y', length Y' = length Y) 0.
Proof.
  intros Hi. unfold setitem.
  replace (i <? 0)%Z with false by lia.
  replace ((0 <=? i) && (i <? len Y))%Z with true by lia.
  apply (costs_ret (<[Z.to_nat i := v]> Y)). apply length_insert.
Qed.

Lemma costs_call_v_func (kv : kvals) (x t : Q) :
  costs (call_v_func kv x t) (λ _, True) 1.
Proof. by exists (v_func kv kv x t), [EvV_func x t]. Qed.

Lemma costs_call_A_cyto (kv : kvals) (A : list Q) :
  costs (call_A_cyto kv A) (λ _, True) 1.
Proof. by exists (A_cyto kv kv A), [EvA_cyto A]. Qed.

Lemma costs_call_P_cyto (kv : kvals) (P : list Q) :
  costs (call_P_cyto kv P) (λ _, True) 1.
Proof. by exists (P_cyto kv kv P), [EvP_cyto P]. Qed.

Lemma costs_for_each {T St} (xs : list T) (body : T → St → M St)
    (I : St → Prop) (c : nat) (s : St) :
  I s → (∀ x s, x ∈ xs → I s → costs (body x s) I c) →
  costs (for_each xs body s) I (c * length xs).
Proof.
  revert s. induction xs as [|x xs IH]; intros s Hs Hbody.
  - rewrite Nat.mul_0_r. by apply (costs_ret s).
  - cbn [for_each length]. replace (c * S (length xs))%nat
      with (c + c * length xs)%nat by lia.
    eapply costs_bind; [apply Hbody; [left|done]|].
    intros s' Hs'. apply IH; [done|].
    intros y s'' Hy. apply Hbody. by right.
Qed.

Section CallCount.

Variables (kv : kvals) (t : Q).
Hypothesis HN : (2 ≤ Nx kv)%Z.
Hypothesis HX : len (X kv) = Nx kv.

Lemma costs_flux (Y : list Q) (i : Z) :
  len Y = Nx kv → (0 ≤ i ≤ Nx kv - 1)%Z →
  costs (flux kv Y t i) (λ _, True) 1.
Proof.
  intros HY Hi. unfold flux. rewrite !getitem_in_range by lia.
  rewrite mret_bind.
  change 1%nat with (1 + 0)%nat.
  eapply costs_bind; [apply costs_call_v_func|].
  intros v _. rewrite mret_bind. by apply costs_ret.
Qed.

Lemma costs_disc_spatial_derivative (Y : list Q) (i : Z) :
  len Y = Nx kv → (0 ≤ i ≤ Nx kv - 2)%Z →
  costs (disc_spatial_derivative kv (flux kv Y t) i) (λ _, True) 2.
Proof.
  intros HY Hi. unfold disc_spatial_derivative.
  change 2%nat with (1 + (1 + 0))%nat.
  eapply costs_bind; [apply costs_flux; [done|lia]|]. intros f1 _.
  eapply costs_bind; [apply costs_flux; [done|lia]|]. intros f0 _.
  by apply costs_ret.
Qed.

Lemma costs_right_boundary_flux (Y : list Q) :
  len Y = Nx kv → costs (right_boundary_flux kv Y t) (λ _, True) 2.
Proof.
  intros HY. unfold right_boundary_flux.
  rewrite !getitem_in_range by lia. rewrite mret_bind.
  change 2%nat with (1 + (1 + 0))%nat.
  eapply costs_bind; [apply costs_call_v_func|]. intros v2 _.
  rewrite !mret_bind.
  eapply costs_bind; [apply costs_call_v_func|]. intros v1 _.
  rewrite mret_bind. by apply costs_ret.
Qed.

End CallCount.

(** An evaluation of the right-hand side on a vector within bounds makes
    [2 + 4 Nx] calls: one of each cytoplasmic capability and four of the
    velocity field per node. *)
Lemma odefunc_costs (t : Q) (U : list Q) (kv : kvals) :
  len U = (2 * Nx kv)%Z → (2 ≤ Nx kv)%Z → len (X kv) = Nx kv →
  in_range U →
  costs (odefunc t U kv) (λ _, True) (2 + 4 * Z.to_nat (Nx kv)).
Proof.
  intros HU HN HX Hin.
  set (A := slice_to U (Nx kv)). set (P := slice_from U (Nx kv)).
  destruct (slice_lengths U (Nx kv) HU) as [HA HP]. fold A P in HA, HP.
  unfold odefunc. fold A P.
  rewrite HU, Z.eqb_refl. unfold assert. rewrite ret_bind.
  rewrite divergence_test
    by (intros ->; unfold len in HU; simpl in HU; lia).
  apply diverges_false in Hin. rewrite Hin.
  unfold Np.zeros. replace (Nx kv <? 0)%Z with false by lia.
  rewrite !ret_bind.
  set (zs := replicate (Z.to_nat (Nx kv)) 0).
  assert (Hzs : length zs = Z.to_nat (Nx kv)) by apply length_replicate.
  replace (2 + 4 * Z.to_nat (Nx kv))%nat
    with (1 + (1 + (0 + (2 + (0 + (0 + (0 + (2 + (0 + (0
          + (4 * length (Np.arange 0 (Nx kv - 1)) + 0)))))))))))%nat
    by (unfold Np.arange; rewrite length_seqZ; lia).
  eapply costs_bind; [apply costs_call_A_cyto|]. intros A_cyto_r _.
  eapply costs_bind; [apply costs_call_P_cyto|]. intros P_cyto_r _.
  eapply costs_bind;
    [eapply costs_eq_ret, disc_diffusion_term_spec; done || lia|].
  intros dA _.
  eapply costs_bind; [by apply costs_right_boundary_flux|]. intros fA _.
  eapply costs_bind; [eapply costs_eq_ret, R_A_spec; done || lia|].
  intros rA _.
  eapply costs_bind; [apply costs_setitem; unfold len; lia|].
  intros dudt_A HdA.
  eapply costs_bind;
    [eapply costs_eq_ret, disc_diffusion_term_spec; done || lia|].
  intros dP _.
  eapply costs_bind; [by apply costs_right_boundary_flux|]. intros fP _.
  eapply costs_bind; [eapply costs_eq_ret, R_P_spec; done || lia|].
  intros rP _.
  eapply costs_bind; [apply costs_setitem; unfold len; lia|].
  intros dudt_P HdP.
  eapply costs_bind.
  - apply (costs_for_each _ _
             (λ s, length s.1 = length zs ∧ length s.2 = length zs));
      [done|].
    intros i [dA' dP'] Hi%elem_of_seqZ [HdA' HdP']. cbn [fst snd] in *.
    replace 4%nat with (0 + (2 + (0 + (0 + (0 + (2 + (0 + (0 + 0))))))))%nat
      by lia.
    eapply costs_bind;
      [eapply costs_eq_ret, disc_diffusion_term_spec; done || lia|].
    intros ? _.
    eapply costs_bind;
      [apply costs_disc_spatial_derivative; done || lia|]. intros ? _.
    eapply costs_bind; [eapply costs_eq_ret, R_A_spec; done || lia|].
    intros ? _.
    eapply costs_bind; [apply costs_setitem; unfold len; lia|].
    intros dA'' HdA''.
    eapply costs_bind;
      [eapply costs_eq_ret, disc_diffusion_term_spec; done || lia|].
    intros ? _.
    eapply costs_bind;
      [apply costs_disc_spatial_derivative; done || lia|]. intros ? _.
    eapply costs_bind; [eapply costs_eq_ret, R_P_spec; done || lia|].
    intros ? _.
    eapply costs_bind; [apply costs_setitem; unfold len; lia|].
    intros dP'' HdP''.
    apply (costs_ret (dA'', dP'')). cbn [fst snd]. split; congruence.
  - intros [dA' dP'] _. by apply costs_ret.
Qed.

(** An evaluation of the right-hand side on a vector within bounds calls
    [A_cyto] first, then [P_cyto], then the velocity field exactly [4 Nx]
    times: twice per species at every node. *)
Theorem odefunc_call_count (t : Q) (U : list Q) (kv : kvals) :
  len U = (2 * Nx kv)%Z → (2 ≤ Nx kv)%Z → len (X kv) = Nx kv →
  in_range U →
  ∃ vs, trace (odefunc t U kv)
        = EvA_cyto (slice_to U (Nx kv))
          :: EvP_cyto (slice_from U (Nx kv)) :: vs
        ∧ Forall is_v_call vs
        ∧ length vs = (4 * Z.to_nat (Nx kv))%nat.
Proof.
  intros HU HN HX Hr.
  destruct (odefunc_in_range t U kv HU HN HX Hr) as (vs & Heq & Hvs).
  destruct (odefunc_costs t U kv HU HN HX Hr) as (a & l & Heq' & _ & Hl).
  exists vs. rewrite Heq in Heq' |- *. injection Heq' as _ <-.
  split; [reflexivity|]. split; [done|]. simpl in Hl. lia.
Qed.

(** ** Further properties of the driver *)

(** The mapping [kvals] the set-up builds, entry by entry. *)
Lemma run_model_setup_kvals (args : loc) (σ : store) (a b : Q) (n : Z)
    (t0v tLv pps : Q) :
  let m := merged σ args in
  entry m "x0" as_float = inr a →
  entry m "xL" as_float = inr b →
  entry m "Nx" as_int = inr n →
  entry m "t0" as_float = inr t0v →
  entry m "tL" as_float = inr tLv →
  entry m "points_per_second" as_float = inr pps →
  (2 ≤ n)%Z → 0 <= pps →
  ∃ Xs ts kvals σ',
    run_model_setup args σ = (inr kvals, σ')
    ∧ Np.linspace a b n = ret Xs
    ∧ Np.linspace t0v tLv (int (pps * Qabs (tLv - t0v))) = ret ts
    ∧ σ' !! kvals
      = Some (<["initial_condition" :=
                  default (VArray (replicate (Z.to_nat n) 0.5
                                   ++ replicate (Z.to_nat n) 0.0))
                    (m !! "initial_condition")]>
                (<["t_eval" := default (VArray ts) (m !! "t_eval")]>
                   (<["deltax" := VFloat (Qabs (item Xs 1 - item Xs 0))]>
                      (<["X" := VArray Xs]> m)))).
Proof.
  intros m Hx0 HxL HNx H0 HL Hp Hn Hpos.
  destruct (linspace_spec a b n) as (Xs & HXs & Hlen & _); [lia|].
  destruct (linspace_spec t0v tLv (int (pps * Qabs (tLv - t0v))))
    as (ts & Hts & _).
  { apply int_nonneg. apply Qmult_le_0_compat; [done|apply Qabs_nonneg]. }
  exists Xs, ts.
  unfold_driver. fold (merged σ args). fold m.
  set (l1 := fresh (dom σ)). set (σ1 := <[l1 := m]> σ).
  replace (σ1 !! l1) with (Some m) by (symmetry; apply lookup_insert_eq).
  cbn [default from_option id]. rewrite Hx0, HxL, HNx, HXs.
  cbn [outcome fst ret]. rewrite !getitem_in_range by lia.
  cbn [outcome fst mret M_ret ret].
  set (kv := <["deltax" := _]> (<["X" := _]> m)).
  set (l2 := fresh (dom σ1)).
  replace (<[l2 := kv]> σ1 !! l2) with (Some kv)
    by (symmetry; apply lookup_insert_eq).
  cbn [default from_option id].
  assert (Hkv : ∀ k, k ≠ "deltax" → k ≠ "X" → kv !! k = m !! k).
  { intros k H1 H2. unfold kv. by rewrite !lookup_insert_ne. }
  assert (Hent : ∀ {A} k (f : value → exn + A), k ≠ "deltax" → k ≠ "X" →
            entry kv k f = entry m k f).
  { intros A k f H1 H2. unfold entry, subscript. by rewrite Hkv. }
  rewrite (Hkv "t_eval") by done.
  rewrite !Hent, H0, HL, Hp, Hts by done. cbn [outcome fst ret].
  exists l2.
  destruct (m !! "t_eval") as [v|] eqn:Ev; cbn [default from_option id];
    rewrite alter_insert_eq, lookup_insert_eq;
    cbn [default from_option id];
    rewrite lookup_insert_ne, (Hkv "initial_condition") by done;
    unfold entry at 1, subscript; rewrite lookup_insert_ne, Hkv by done;
    fold (subscript m "Nx"); fold (entry m "Nx" as_int); rewrite HNx;
    rewrite default_initial_condition;
    destruct (m !! "initial_condition") as [w|] eqn:Ew;
    cbn [default from_option id];
    (eexists; split; [reflexivity|]; split; [done|]; split; [done|]);
    by rewrite alter_insert_eq, lookup_insert_eq.
Qed.

(** The entries of [kvals]: an override wins over the default, a key only
    the defaults have keeps its default, a key unknown to the defaults
    passes through, nothing else appears, and ["X"] is always the grid the
    driver computed, whatever the caller supplied under that key. *)
Theorem run_model_merges_overrides (args : loc) (σ : store)
    (defaults overrides : dict) (a b : Q) (n : Z) (t0v tLv pps : Q) :
  σ !! DEFAULT_PARAMETERS = Some defaults →
  σ !! args = Some overrides →
  typed_config (merged σ args) a b n t0v tLv pps →
  (2 ≤ n)%Z → 0 <= pps →
  ∃ kvals σ' kv Xs,
    run_model_setup args σ = (inr kvals, σ')
    ∧ σ' !! kvals = Some kv
    ∧ (∀ k v, k ≠ "X" → k ≠ "deltax" →
         overrides !! k = Some v → kv !! k = Some v)
    ∧ (∀ k v, k ≠ "X" → k ≠ "deltax" →
         overrides !! k = None → defaults !! k = Some v → kv !! k = Some v)
    ∧ (∀ k, k ≠ "X" → k ≠ "deltax" → k ≠ "t_eval" →
         k ≠ "initial_condition" →
         overrides !! k = None → defaults !! k = None → kv !! k = None)
    ∧ Np.linspace a b n = ret Xs
    ∧ kv !! "X" = Some (VArray Xs).
Proof.
  intros Hd Ha (Hx0 & HxL & HNx & H0 & HL & Hp & _) Hn Hpos.
  destruct (run_model_setup_kvals args σ a b n t0v tLv pps
              Hx0 HxL HNx H0 HL Hp Hn Hpos)
    as (Xs & ts & kvals & σ' & Hrun & HXs & Hts & Hkv).
  unfold merged in Hkv. rewrite Hd, Ha in Hkv. cbn [default from_option id] in Hkv.
  exists kvals, σ'. eexists. exists Xs.
  split; [exact Hrun|]. split; [exact Hkv|].
  assert (Hpass : ∀ k v, k ≠ "X" → k ≠ "deltax" →
            (overrides ∪ defaults) !! k = Some v →
            <["initial_condition" :=
                default (VArray (replicate (Z.to_nat n) 0.5
                                 ++ replicate (Z.to_nat n) 0.0))
                  ((overrides ∪ defaults) !! "initial_condition")]>
              (<["t_eval" := default (VArray ts)
                               ((overrides ∪ defaults) !! "t_eval")]>
                 (<["deltax" := VFloat (Qabs (item Xs 1 - item Xs 0))]>
                    (<["X" := VArray Xs]> (overrides ∪ defaults)))) !! k
            = Some v).
  { intros k v HkX Hkd Hm.
    destruct (decide (k = "initial_condition")) as [->|Hic].
    { by rewrite lookup_insert_eq, Hm. }
    rewrite lookup_insert_ne by done.
    destruct (decide (k = "t_eval")) as [->|Hte].
    { by rewrite lookup_insert_eq, Hm. }
    by rewrite !lookup_insert_ne. }
  split; [|split; [|split; [|split]]].
  - intros k v HkX Hkd Ho. apply Hpass; [done|done|].
    by apply lookup_union_Some_l.
  - intros k v HkX Hkd Ho Hdef. apply Hpass; [done|done|].
    by rewrite lookup_union_r.
  - intros k HkX Hkd Hte Hic Ho Hdef. rewrite !lookup_insert_ne by done.
    apply lookup_union_None_2; done.
  - exact HXs.
  - by rewrite !lookup_insert_ne, lookup_insert_eq by done.
Qed.

(** Output times.  Without ["t_eval"] the driver samples
    [int(points_per_second * |tL - t0|)] times; with at least two samples
    and [t0 < tL] they run from [t0] to [tL] inclusive, so consecutive
    samples are [(tL - t0) / (count - 1)] apart.  A supplied ["t_eval"] or
    ["initial_condition"] is stored as given. *)
Theorem run_model_output_times (args : loc) (σ : store) (a b : Q) (n : Z)
    (t0v tLv pps : Q) :
  let m := merged σ args in
  let count := int (pps * Qabs (tLv - t0v)) in
  typed_config m a b n t0v tLv pps → (2 ≤ n)%Z → 0 <= pps →
  ∃ kvals σ' kv,
    run_model_setup args σ = (inr kvals, σ')
    ∧ σ' !! kvals = Some kv
    ∧ (∀ v, m !! "t_eval" = Some v → kv !! "t_eval" = Some v)
    ∧ (∀ v, m !! "initial_condition" = Some v →
         kv !! "initial_condition" = Some v)
    ∧ (m !! "t_eval" = None →
       ∃ ts, kv !! "t_eval" = Some (VArray ts)
         ∧ len ts = count
         ∧ ((2 ≤ count)%Z → t0v < tLv →
            item ts 0 == t0v ∧ item ts (count - 1) == tLv
            ∧ ∀ i, (0 ≤ i < count - 1)%Z →
                item ts (i + 1) - item ts i
                == (tLv - t0v) / inject_Z (count - 1))).
Proof.
  intros m count (Hx0 & HxL & HNx & H0 & HL & Hp & _) Hn Hpos.
  destruct (run_model_setup_kvals args σ a b n t0v tLv pps
              Hx0 HxL HNx H0 HL Hp Hn Hpos)
    as (Xs & ts & kvals & σ' & Hrun & HXs & Hts & Hkv).
  fold m count in Hkv, Hts.
  exists kvals, σ'. eexists. split; [exact Hrun|]. split; [exact Hkv|].
  split; [|split].
  - intros v Hv. by rewrite lookup_insert_ne, lookup_insert_eq, Hv.
  - intros v Hv. by rewrite lookup_insert_eq, Hv.
  - intros Hnone. exists ts.
    rewrite lookup_insert_ne, lookup_insert_eq, Hnone by done.
    split; [done|].
    assert (Hc : (0 ≤ count)%Z).
    { apply int_nonneg. apply Qmult_le_0_compat; [done|apply Qabs_nonneg]. }
    destruct (linspace_spec t0v tLv count Hc) as (ts' & Hts' & Hlen & _).
    rewrite Hts in Hts'. injection Hts' as <-.
    split; [exact Hlen|]. intros Hc2 Hlt.
    destruct (linspace_grid t0v tLv count ts Hc2 Hlt Hts)
      as (_ & Hfirst & Hlast & Hsteps).
    split; [done|]. split; [done|]. intros i Hi. by apply Hsteps.
Qed.

(** The spacing.  For any bounds, in either order, the stored ["deltax"] is
    [|xL - x0| / (Nx - 1)]; it is never negative, and it is zero, with no
    error raised, when the two bounds coincide. *)
Theorem run_model_spacing (args : loc) (σ : store) (a b : Q) (n : Z)
    (t0v tLv pps : Q) :
  typed_config (merged σ args) a b n t0v tLv pps → (2 ≤ n)%Z → 0 <= pps →
  ∃ kvals σ' kv d,
    run_model_setup args σ = (inr kvals, σ')
    ∧ σ' !! kvals = Some kv
    ∧ kv !! "deltax" = Some (VFloat d)
    ∧ d == Qabs (b - a) / inject_Z (n - 1)
    ∧ 0 <= d
    ∧ (a == b → d == 0).
Proof.
  intros (Hx0 & HxL & HNx & H0 & HL & Hp & _) Hn Hpos.
  destruct (run_model_setup_kvals args σ a b n t0v tLv pps
              Hx0 HxL HNx H0 HL Hp Hn Hpos)
    as (Xs & ts & kvals & σ' & Hrun & HXs & Hts & Hkv).
  exists kvals, σ'. eexists. eexists.
  split; [exact Hrun|]. split; [exact Hkv|].
  split; [by rewrite !lookup_insert_ne, lookup_insert_eq by done|].
  destruct (linspace_spec a b n) as (Xs' & HXs' & Hlen & Hi & Hlast); [lia|].
  rewrite HXs in HXs'. injection HXs' as <-.
  assert (Hpos' : 0 < inject_Z (n - 1)) by (apply inject_Z_pos; lia).
  assert (Hstep : item Xs 1 - item Xs 0 == (b - a) / inject_Z (n - 1)).
  { rewrite (Hi 0%Z) by lia. change (inject_Z 0) with 0.
    destruct (decide (n = 2%Z)) as [->|Hn2].
    - change (item Xs 1) with (item Xs (2 - 1)).
      rewrite (Hlast ltac:(lia)). change (inject_Z (2 - 1)) with 1.
      field.
    - rewrite (Hi 1%Z) by lia. change (inject_Z 1) with 1. ring. }
  assert (Hd : Qabs (item Xs 1 - item Xs 0)
               == Qabs (b - a) / inject_Z (n - 1)).
  { rewrite Hstep. unfold Qdiv. rewrite Qabs_Qmult.
    rewrite (Qabs_pos (/ inject_Z (n - 1))); [reflexivity|].
    apply Qlt_le_weak, Qinv_lt_0_compat, Hpos'. }
  split; [exact Hd|]. split; [apply Qabs_nonneg|].
  intros Hab. rewrite Hd, Hab.
  setoid_replace (b - b) with 0 using relation Qeq by ring. unfold Qdiv.
  change (Qabs 0) with 0. ring.
Qed.

(** What the integrator receives and what becomes of its result: the
    right-hand side reads the mapping [kvals], the span is [(t0, tL)], the
    initial state and the output times are the stored ones; an exception of
    the integrator is the exception of [run_model], its solution is returned
    with [kvals]. *)
Theorem run_model_calls_integrator (solve_ivp : integrator) (args : loc)
    (σ : store) (a b : Q) (n : Z) (t0v tLv pps : Q) :
  typed_config (merged σ args) a b n t0v tLv pps → (2 ≤ n)%Z → 0 <= pps →
  ∃ kvals σ' kv y0 ts,
    σ' !! kvals = Some kv
    ∧ kv !! "initial_condition" = Some (VArray y0)
    ∧ kv !! "t_eval" = Some (VArray ts)
    ∧ run_model solve_ivp args σ
      = (match solve_ivp (odefunc_on kv) (t0v, tLv) y0 ts with
         | inl e => inl e
         | inr sol => inr (sol, kvals)
         end, σ').
Proof.
  intros (Hx0 & HxL & HNx & H0 & HL & Hp & Hte & Hic) Hn Hpos.
  destruct (run_model_setup_kvals args σ a b n t0v tLv pps
              Hx0 HxL HNx H0 HL Hp Hn Hpos)
    as (Xs & ts & kvals & σ' & Hrun & HXs & Hts & Hkv).
  assert (Hic' : ∃ y0,
            default (VArray (replicate (Z.to_nat n) 0.5
                             ++ replicate (Z.to_nat n) 0.0))
              (merged σ args !! "initial_condition") = VArray y0).
  { destruct (merged σ args !! "initial_condition") as [v|] eqn:E.
    - by apply Hic.
    - cbn. eauto. }
  assert (Hte' : ∃ ts', default (VArray ts) (merged σ args !! "t_eval")
                        = VArray ts').
  { destruct (merged σ args !! "t_eval") as [v|] eqn:E.
    - by apply Hte.
    - cbn. eauto. }
  destruct Hic' as [y0 Ey0]. destruct Hte' as [ts' Ets].
  rewrite Ey0, Ets in Hkv.
  exists kvals, σ'. eexists. exists y0, ts'.
  split; [exact Hkv|].
  split; [by rewrite lookup_insert_eq|].
  split; [by rewrite lookup_insert_ne, lookup_insert_eq by done|].
  unfold run_model. rewrite D_bind_run, Hrun.
  cbv beta iota zeta delta [mbind D_bind load lift mret D_ret].
  rewrite Hkv. cbn [default from_option id].
  unfold entry, subscript in *.
  rewrite !lookup_insert_ne by done.
  rewrite lookup_insert_eq.
  rewrite (lookup_insert_ne _ "initial_condition" "t_eval") by done.
  rewrite lookup_insert_eq.
  cbn [mbind exn_bind as_array].
  destruct (merged σ args !! "t0") as [v0|]; [|done].
  destruct (merged σ args !! "tL") as [vL|]; [|done].
  cbn [mbind exn_bind] in *. rewrite H0, HL.
  destruct (solve_ivp _ _ _ _); reflexivity.
Qed.

(** ** The default velocity field *)

Lemma envelope_ge_1 (t : Q) : 1 <= Qmax 1 (Qabs ((t - 120) / 80)).
Proof. apply Q.le_max_l. Qed.

Lemma envelope_denominator_pos (t : Q) :
  0 < 700000 * Qmax 1 (Qabs ((t - 120) / 80)) ^ 2.
Proof.
  pose proof (envelope_ge_1 t) as H.
  set (e := Qmax 1 (Qabs ((t - 120) / 80))) in *.
  simpl. nra.
Qed.

Lemma Qabs_sqr (w : Q) : Qabs w ^ 2 == w ^ 2.
Proof.
  simpl. apply (Qabs_case w (λ a, a * a == w * w)); intros _; ring.
Qed.

(** The default velocity vanishes, at all times, at [x = 0], [x = 35] and
    [x = 190]. *)
Theorem default_v_func_roots (kv : params) (t : Q) :
  default_v_func kv 0 t == 0
  ∧ default_v_func kv 35 t == 0
  ∧ default_v_func kv 190 t == 0.
Proof. unfold default_v_func, Qdiv. repeat split; ring. Qed.

(** The time envelope of the default velocity: constant on
    [|t - 120| <= 80], decaying like [(80 / (t - 120))^2] outside, symmetric
    about [t = 120]. *)
Theorem default_v_func_envelope (kv : params) (x t : Q) :
  (Qabs (t - 120) <= 80 →
   default_v_func kv x t == - x * (x - 190) * (x - 35) / 700000)
  ∧ (80 <= Qabs (t - 120) →
     default_v_func kv x t
     == - x * (x - 190) * (x - 35) * 6400 / (700000 * (t - 120) ^ 2))
  ∧ default_v_func kv x (240 - t) == default_v_func kv x t.
Proof.
  assert (Hdiv : Qabs ((t - 120) / 80) == Qabs (t - 120) / 80).
  { unfold Qdiv. rewrite Qabs_Qmult. reflexivity. }
  split; [|split].
  - intros H. unfold default_v_func.
    rewrite Q.max_l by (rewrite Hdiv; apply Qle_shift_div_r; lra).
    field.
  - intros H. unfold default_v_func.
    rewrite Q.max_r by (rewrite Hdiv; apply Qle_shift_div_l; lra).
    rewrite Qabs_sqr.
    assert (Hne : ¬ t - 120 == 0).
    { intros E. rewrite E in H. revert H. change (Qabs 0) with 0. lra. }
    field. done.
  - unfold default_v_func.
    assert (E : Qabs ((240 - t - 120) / 80) == Qabs ((t - 120) / 80)).
    { setoid_replace ((240 - t - 120) / 80) with (- ((t - 120) / 80))
        using relation Qeq by field.
      apply Qabs_opp. }
    rewrite E. reflexivity.
Qed.

(** The direction of the default flow: towards smaller [x] on [(0, 35)],
    towards larger [x] on [(35, 190)], at all times. *)
Theorem default_v_func_sign (kv : params) (x t : Q) :
  (0 < x → x < 35 → default_v_func kv x t < 0)
  ∧ (35 < x → x < 190 → 0 < default_v_func kv x t).
Proof.
  pose proof (envelope_denominator_pos t) as HD.
  unfold default_v_func.
  set (D := 700000 * Qmax 1 (Qabs ((t - 120) / 80)) ^ 2) in *.
  assert (Hinv : 0 < / D) by (apply Qinv_lt_0_compat; exact HD).
  unfold Qdiv. split.
  - intros H0 H35.
    assert (H : 0 < (190 - x) * (35 - x)) by (apply Qmult_lt_0_compat; lra).
    assert (H' : 0 < x * ((190 - x) * (35 - x)) * / D)
      by (repeat apply Qmult_lt_0_compat; first [assumption | lra]).
    setoid_replace (- x * (x - 190) * (x - 35) * / D)
      with (- (x * ((190 - x) * (35 - x)) * / D)) using relation Qeq by ring.
    lra.
  - intros H35 H190.
    assert (H : 0 < (190 - x) * (x - 35)) by (apply Qmult_lt_0_compat; lra).
    assert (H' : 0 < x * ((190 - x) * (x - 35)) * / D)
      by (repeat apply Qmult_lt_0_compat; first [assumption | lra]).
    setoid_replace (- x * (x - 190) * (x - 35) * / D)
      with (x * ((190 - x) * (x - 35)) * / D) using relation Qeq by ring.
    done.
Qed.

(** The default velocity is not odd in space, at any time:
    [v(-1, t) <> -v(1, t)]. *)
Theorem default_v_func_not_odd (kv : params) (t : Q) :
  ¬ default_v_func kv (-1) t == - default_v_func kv 1 t.
Proof.
  pose proof (envelope_denominator_pos t) as HD.
  unfold default_v_func.
  set (D := 700000 * Qmax 1 (Qabs ((t - 120) / 80)) ^ 2) in *.
  assert (Hinv : 0 < / D) by (apply Qinv_lt_0_compat; exact HD).
  unfold Qdiv. intros H.
  assert (E : 450 * / D == 0).
  { setoid_replace (450 * / D)
      with (- (-1) * (-1 - 190) * (-1 - 35) * / D
            - - (- (1) * (1 - 190) * (1 - 35) * / D))
      using relation Qeq by ring.
    rewrite H. ring. }
  lra.
Qed.

(** ** The default cytoplasmic quantities *)

(** On a grid that spans half of [L], as the default one does, and for a
    quadrature exact on constants, a uniform membrane concentration [c]
    leaves [rho_A - psi * c] of A and [rho_P - psi * c] of P in the
    cytoplasm. *)
Theorem default_cyto_uniform (simpson : list Q → list Q → Q) (kv : params)
    (c : Q) :
  simpson (replicate (length (X kv)) c) (X kv)
  == c * (List.last (X kv) 0 - List.hd 0 (X kv)) →
  List.last (X kv) 0 - List.hd 0 (X kv) == L kv / 2 →
  0 < L kv →
  default_A_cyto simpson kv (replicate (length (X kv)) c)
  == rho_A kv - psi kv * c
  ∧ default_P_cyto simpson kv (replicate (length (X kv)) c)
    == rho_P kv - psi kv * c.
Proof.
  intros Hexact Hspan HL.
  unfold default_A_cyto, default_P_cyto, Ybar.
  rewrite Hexact, Hspan. split; field; lra.
Qed.

(** ** The further properties at work on the small configurations *)

Lemma odefunc_length_mismatch_witness :
  len [1; 2] ≠ (2 * Nx three_nodes_default)%Z
  ∧ odefunc 0 [1; 2] three_nodes_default = (inl AssertionError, []).
Proof.
  assert (H : len [1; 2] ≠ (2 * Nx three_nodes_default)%Z) by discriminate.
  split; [exact H|].
  apply (odefunc_length_mismatch 0 [1; 2] three_nodes_default H).
Defined.


Lemma odefunc_leading_nan_witness :
  let U := [Nan.nan; Nan.num 0; Nan.num 0; Nan.num 0; Nan.num 0;
            Nan.num (-1000)] in
  let kv := on_floats three_nodes_default in
  len U = (2 * Nx kv)%Z ∧ (2 ≤ Nx kv)%Z ∧ len (X kv) = Nx kv
  ∧ head U = Some Nan.nan
  ∧ ∃ dudt, Nan.outcome (Nan.odefunc 0 U kv) = inr dudt ∧ len dudt = len U.
Proof.
  split; [reflexivity|]. split; [(cbn; lia)|]. split; [reflexivity|].
  split; [reflexivity|].
  apply (odefunc_leading_nan 0
           [Nan.nan; Nan.num 0; Nan.num 0; Nan.num 0; Nan.num 0;
            Nan.num (-1000)]
           (on_floats three_nodes_default));
    [reflexivity | (cbn; lia) | reflexivity | reflexivity].
Defined.

Lemma three_nodes_in_range : in_range [1; 0; 0; 0; 0; 0].
Proof. apply diverges_false. reflexivity. Defined.

Lemma odefunc_same_length_witness :
  len [1; 0; 0; 0; 0; 0] = (2 * Nx three_nodes_default)%Z
  ∧ (2 ≤ Nx three_nodes_default)%Z
  ∧ len (X three_nodes_default) = Nx three_nodes_default
  ∧ in_range [1; 0; 0; 0; 0; 0]
  ∧ ∃ dudt,
      outcome (odefunc 0 [1; 0; 0; 0; 0; 0] three_nodes_default) = inr dudt
      ∧ len dudt = 6%Z.
Proof.
  split; [reflexivity|]. split; [cbn; lia|]. split; [reflexivity|].
  split; [exact three_nodes_in_range|].
  apply (odefunc_same_length 0 [1; 0; 0; 0; 0; 0] three_nodes_default);
    [reflexivity | cbn; lia | reflexivity | exact three_nodes_in_range].
Defined.

Lemma odefunc_few_nodes_witness :
  Nx one_node = 1%Z ∧ len [0.5; 0] = 2%Z ∧ in_range [0.5; 0]
  ∧ odefunc 0 [0.5; 0] one_node
    = (inl IndexError, [EvA_cyto [0.5]; EvP_cyto [0]]).
Proof.
  assert (Hr : in_range [0.5; 0]) by (apply diverges_false; reflexivity).
  split; [reflexivity|]. split; [reflexivity|]. split; [exact Hr|].
  apply (odefunc_few_nodes 0 [0.5; 0] one_node); [reflexivity.. | exact Hr].
Defined.

Lemma disc_diffusion_term_uniform_witness :
  (2 ≤ Nx three_nodes_default)%Z ∧ 0 < deltax three_nodes_default
  ∧ (0 ≤ 2 ≤ Nx three_nodes_default - 1)%Z
  ∧ ∃ d, disc_diffusion_term three_nodes_default [7; 7; 7] 2 = mret d
         ∧ d == 0.
Proof.
  split; [cbn; lia|]. split; [reflexivity|]. split; [cbn; lia|].
  apply (disc_diffusion_term_uniform three_nodes_default 7 2);
    [cbn; lia | reflexivity | cbn; lia].
Defined.

Lemma pure_diffusion_still : zero_velocity pure_diffusion.
Proof. intros x t. reflexivity. Defined.

Lemma odefunc_uniform_state_witness :
  zero_velocity pure_diffusion ∧ (2 ≤ Nx pure_diffusion)%Z
  ∧ len (X pure_diffusion) = Nx pure_diffusion ∧ 0 < deltax pure_diffusion
  ∧ in_range ([0.5; 0.5; 0.5] ++ [0; 0; 0])
  ∧ ∃ dudt,
      outcome (odefunc 0 ([0.5; 0.5; 0.5] ++ [0; 0; 0]) pure_diffusion)
      = inr dudt.
Proof.
  assert (Hr : in_range ([0.5; 0.5; 0.5] ++ [0; 0; 0]))
    by (apply diverges_false; reflexivity).
  split; [exact pure_diffusion_still|]. split; [cbn; lia|].
  split; [reflexivity|]. split; [reflexivity|]. split; [exact Hr|].
  destruct (odefunc_uniform_state 0 0.5 0 pure_diffusion
              pure_diffusion_still)
    as (dudt & H & _); [cbn; lia | reflexivity | reflexivity | exact Hr |].
  exists dudt. exact H.
Defined.

Lemma odefunc_accepts_default_initial_condition_witness :
  (2 ≤ Nx three_nodes_default)%Z
  ∧ len (X three_nodes_default) = Nx three_nodes_default
  ∧ ∃ dudt,
      outcome (odefunc 0 [0.5; 0.5; 0.5; 0.0; 0.0; 0.0] three_nodes_default)
      = inr dudt.
Proof.
  split; [cbn; lia|]. split; [reflexivity|].
  apply (odefunc_accepts_default_initial_condition 0 three_nodes_default);
    [cbn; lia | reflexivity].
Defined.

Lemma disc_spatial_derivative_last_node_witness :
  len (X three_nodes_default) = Nx three_nodes_default
  ∧ disc_spatial_derivative three_nodes_default
      (flux three_nodes_default [1; 0; 0] 0) 2
    = (inl IndexError, []).
Proof.
  split; [reflexivity|].
  apply (disc_spatial_derivative_last_node three_nodes_default [1; 0; 0] 0
           eq_refl).
Defined.

Lemma odefunc_call_count_witness :
  len [1; 0; 0; 0; 0; 0] = (2 * Nx three_nodes_default)%Z
  ∧ (2 ≤ Nx three_nodes_default)%Z
  ∧ len (X three_nodes_default) = Nx three_nodes_default
  ∧ in_range [1; 0; 0; 0; 0; 0]
  ∧ ∃ vs,
      trace (odefunc 0 [1; 0; 0; 0; 0; 0] three_nodes_default)
      = EvA_cyto [1; 0; 0] :: EvP_cyto [0; 0; 0] :: vs
      ∧ Forall is_v_call vs ∧ length vs = 12%nat.
Proof.
  split; [reflexivity|]. split; [cbn; lia|]. split; [reflexivity|].
  split; [exact three_nodes_in_range|].
  apply (odefunc_call_count 0 [1; 0; 0; 0; 0; 0] three_nodes_default);
    [reflexivity | cbn; lia | reflexivity | exact three_nodes_in_range].
Defined.

Lemma run_model_merges_overrides_witness :
  module_store four_nodes !! DEFAULT_PARAMETERS
  = Some (DEFAULT_PARAMETERS_init simpson_rule)
  ∧ module_store four_nodes !! 2%positive = Some four_nodes
  ∧ typed_config (merged (module_store four_nodes) 2%positive)
      0 67.3 4 0 1 2
  ∧ (2 ≤ 4)%Z ∧ 0 <= 2
  ∧ ∃ kvals σ' kv,
      run_model_setup 2%positive (module_store four_nodes) = (inr kvals, σ')
      ∧ σ' !! kvals = Some kv
      ∧ kv !! "Nx" = Some (VInt 4)
      ∧ kv !! "psi" = Some (VFloat 0.174).
Proof.
  assert (H1 : module_store four_nodes !! DEFAULT_PARAMETERS
               = Some (DEFAULT_PARAMETERS_init simpson_rule))
    by reflexivity.
  assert (H2 : module_store four_nodes !! 2%positive = Some four_nodes)
    by reflexivity.
  split; [exact H1|]. split; [exact H2|].
  split; [exact four_nodes_typed|]. split; [lia|]. split; [discriminate|].
  destruct (run_model_merges_overrides 2%positive (module_store four_nodes)
              _ _ 0 67.3 4 0 1 2 H1 H2 four_nodes_typed)
    as (kvals & σ' & kv & Xs & Hrun & Hkv & Ho & Hd & _);
    [lia | discriminate |].
  exists kvals, σ', kv. split; [exact Hrun|]. split; [exact Hkv|]. split.
  - apply Ho; [discriminate | discriminate | reflexivity].
  - apply Hd; [discriminate | discriminate | reflexivity | reflexivity].
Defined.

Lemma run_model_output_times_witness :
  typed_config (merged (module_store four_nodes) 2%positive) 0 67.3 4 0 1 2
  ∧ (2 ≤ 4)%Z ∧ 0 <= 2
  ∧ ∃ kvals σ' kv ts,
      run_model_setup 2%positive (module_store four_nodes) = (inr kvals, σ')
      ∧ σ' !! kvals = Some kv
      ∧ kv !! "t_eval" = Some (VArray ts)
      ∧ len ts = 2%Z.
Proof.
  split; [exact four_nodes_typed|]. split; [lia|]. split; [discriminate|].
  destruct (run_model_output_times 2%positive (module_store four_nodes)
              0 67.3 4 0 1 2 four_nodes_typed)
    as (kvals & σ' & kv & Hrun & Hkv & _ & _ & Ht); [lia | discriminate |].
  assert (Hn : merged (module_store four_nodes) 2%positive !! "t_eval"
               = None) by (vm_compute; reflexivity).
  destruct (Ht Hn) as (ts & Hts & Hlen & _).
  exists kvals, σ', kv, ts. repeat split; assumption.
Defined.

Lemma run_model_spacing_witness :
  typed_config (merged (module_store reversed_bounds) 2%positive)
    0 (-1) 2 0 (-1) 2
  ∧ (2 ≤ 2)%Z ∧ 0 <= 2
  ∧ ∃ kvals σ' kv d,
      run_model_setup 2%positive (module_store reversed_bounds)
      = (inr kvals, σ')
      ∧ σ' !! kvals = Some kv
      ∧ kv !! "deltax" = Some (VFloat d)
      ∧ d == 1.
Proof.
  split; [exact reversed_bounds_typed|]. split; [lia|].
  split; [discriminate|].
  destruct (run_model_spacing 2%positive (module_store reversed_bounds)
              0 (-1) 2 0 (-1) 2 reversed_bounds_typed)
    as (kvals & σ' & kv & d & Hrun & Hkv & Hd & Heq & _);
    [lia | discriminate |].
  exists kvals, σ', kv, d. repeat split; assumption.
Defined.

Lemma run_model_calls_integrator_witness :
  typed_config (merged (module_store four_nodes) 2%positive) 0 67.3 4 0 1 2
  ∧ (2 ≤ 4)%Z ∧ 0 <= 2
  ∧ ∃ kvals σ' kv y0 ts,
      σ' !! kvals = Some kv
      ∧ run_model first_step 2%positive (module_store four_nodes)
        = (match first_step (odefunc_on kv) (0, 1) y0 ts with
           | inl e => inl e
           | inr sol => inr (sol, kvals)
           end, σ').
Proof.
  split; [exact four_nodes_typed|]. split; [lia|]. split; [discriminate|].
  destruct (run_model_calls_integrator first_step 2%positive
              (module_store four_nodes) 0 67.3 4 0 1 2 four_nodes_typed)
    as (kvals & σ' & kv & y0 & ts & Hkv & _ & _ & Hrun);
    [lia | discriminate |].
  exists kvals, σ', kv, y0, ts. split; assumption.
Defined.

Lemma default_v_func_envelope_witness :
  Qabs (100 - 120) <= 80
  ∧ default_v_func three_nodes 10 100
    == - 10 * (10 - 190) * (10 - 35) / 700000.
Proof.
  assert (H : Qabs (100 - 120) <= 80) by discriminate.
  split; [exact H|].
  destruct (default_v_func_envelope three_nodes 10 100) as [Hp _].
  exact (Hp H).
Defined.

Lemma default_v_func_sign_witness :
  35 < 50 ∧ 50 < 190 ∧ 0 < default_v_func three_nodes 50 0.
Proof.
  split; [reflexivity|]. split; [reflexivity|].
  destruct (default_v_func_sign three_nodes 50 0) as [_ Hp].
  apply Hp; reflexivity.
Defined.

Lemma default_v_func_not_odd_witness :
  ¬ default_v_func three_nodes (-1) 0 == - default_v_func three_nodes 1 0.
Proof. apply (default_v_func_not_odd three_nodes 0). Defined.

Lemma default_cyto_uniform_witness :
  simpson_rule (replicate (length (X half_cell)) 3) (X half_cell)
  == 3 * (List.last (X half_cell) 0 - List.hd 0 (X half_cell))
  ∧ List.last (X half_cell) 0 - List.hd 0 (X half_cell) == L half_cell / 2
  ∧ 0 < L half_cell
  ∧ default_A_cyto simpson_rule half_cell [3; 3; 3]
    == rho_A half_cell - psi half_cell * 3.
Proof.
  split; [reflexivity|]. split; [reflexivity|]. split; [reflexivity|].
  apply (default_cyto_uniform simpson_rule half_cell 3); reflexivity.
Defined.

(** ** The two embeddings of the right-hand side agree on numbers *)

Lemma float_run_ret {A B} (h : A → B) (a : A) :
  mret (h a) = float_run h (mret a).
Proof. reflexivity. Qed.

Lemma float_run_bind {A A' B B'} (h : A → A') (g : B → B') (m : M A)
    (f : A → M B) (m' : Nan.M A') (f' : A' → Nan.M B') :
  m' = float_run h m → (∀ a, f' (h a) = float_run g (f a)) →
  m' ≫= f' = float_run g (m ≫= f).
Proof.
  intros -> Hf. destruct m as [[e|a] l]; [reflexivity|].
  rewrite bind_inr. unfold float_run at 1. cbn [fst snd].
  rewrite float_bind_inr, Hf. unfold float_run, Nan.outcome, Nan.trace.
  cbn [fst snd outcome trace]. by rewrite fmap_app.
Qed.

Lemma float_run_getitem (Y : list Q) (i : Z) :
  Nan.getitem (Nan.num <$> Y) i = float_run Nan.num (getitem Y i).
Proof.
  unfold Nan.getitem, getitem, len. rewrite length_fmap.
  set (j := (if (i <? 0)%Z then (i + Z.of_nat (length Y))%Z else i)).
  destruct (Z.leb_spec 0 j) as [Hj|Hj]; [|reflexivity].
  destruct (Z.ltb_spec j (Z.of_nat (length Y))) as [Hlt|Hge]; simpl.
  - rewrite list_lookup_fmap.
    destruct (lookup_lt_is_Some_2 Y (Z.to_nat j)) as [y Hy]; [lia|].
    rewrite Hy. simpl. unfold float_run. simpl.
    by rewrite (nth_lookup_Some _ _ _ _ Hy).
  - rewrite lookup_ge_None_2; [reflexivity|]. rewrite length_fmap. lia.
Qed.

Lemma float_run_getitem_grid (Y : list Q) (i : Z) :
  Nan.getitem Y i = float_run id (getitem Y i).
Proof.
  unfold Nan.getitem, getitem, len.
  set (j := (if (i <? 0)%Z then (i + Z.of_nat (length Y))%Z else i)).
  destruct (Z.leb_spec 0 j) as [Hj|Hj]; [|reflexivity].
  destruct (Z.ltb_spec j (Z.of_nat (length Y))) as [Hlt|Hge]; simpl.
  - destruct (lookup_lt_is_Some_2 Y (Z.to_nat j)) as [y Hy]; [lia|].
    rewrite Hy. unfold float_run. simpl.
    by rewrite (nth_lookup_Some _ _ _ _ Hy).
  - rewrite lookup_ge_None_2; [reflexivity|]. lia.
Qed.

Lemma float_run_setitem (Y : list Q) (i : Z) (v : Q) :
  Nan.setitem (Nan.num <$> Y) i (Nan.num v)
  = float_run (fmap Nan.num) (setitem Y i v).
Proof.
  unfold Nan.setitem, setitem, len. rewrite length_fmap.
  set (j := (if (i <? 0)%Z then (i + Z.of_nat (length Y))%Z else i)).
  destruct ((0 <=? j) && (j <? Z.of_nat (length Y)))%Z; [|reflexivity].
  unfold float_run. simpl. by rewrite list_fmap_insert.
Qed.

Lemma float_run_zeros (n : Z) :
  Nan.zeros n = float_run (fmap Nan.num) (Np.zeros n).
Proof.
  unfold Nan.zeros, Np.zeros. destruct (n <? 0)%Z; [reflexivity|].
  unfold float_run. simpl. by rewrite fmap_replicate.
Qed.

Lemma float_slices (U : list Q) (n : Z) :
  Nan.slice_to (Nan.num <$> U) n = Nan.num <$> slice_to U n
  ∧ Nan.slice_from (Nan.num <$> U) n = Nan.num <$> slice_from U n.
Proof.
  unfold Nan.slice_to, Nan.slice_from, slice_to, slice_from, len.
  rewrite length_fmap, fmap_take, fmap_drop. done.
Qed.

Lemma numbers_fmap (Y : list Q) : numbers (Nan.num <$> Y) = Some Y.
Proof.
  unfold numbers. induction Y as [|y Y IH]; [reflexivity|].
  cbn. cbn in IH. by rewrite IH.
Qed.

Lemma float_pow_number (a : Q) (n : Z) :
  Nan.pow (Nan.num a) n = Nan.num (a ^ n).
Proof. unfold Nan.pow. by destruct (Z.eqb_spec n 0) as [->|]. Qed.

Lemma float_run_for_each {T S S'} (h : S → S') (xs : list T)
    (body : T → S → M S) (body' : T → S' → Nan.M S') (s : S) :
  (∀ x s, body' x (h s) = float_run h (body x s)) →
  Nan.for_each xs body' (h s) = float_run h (for_each xs body s).
Proof.
  intros Hbody. revert s. induction xs as [|x xs IH]; intros s; simpl.
  - reflexivity.
  - eapply float_run_bind; [apply Hbody | intros s'; apply IH].
Qed.

Ltac run_step :=
  lazymatch goal with
  | |- mret _ = float_run _ (mret _) => reflexivity
  | |- Nan.getitem (Nan.num <$> _) _ = _ => apply float_run_getitem
  | |- Nan.getitem _ _ = _ => apply float_run_getitem_grid
  | |- Nan.setitem _ _ _ = _ => apply float_run_setitem
  | |- _ ≫= _ = float_run _ (_ ≫= _) =>
      eapply float_run_bind; [|intros ?; cbv beta]
  end.

Section Agreement.

Variables (kv : kvals) (t : Q).

Lemma float_run_call_v_func (x : Q) :
  Nan.call_v_func (on_floats kv) x t = float_run Nan.num (call_v_func kv x t).
Proof. reflexivity. Qed.

Lemma float_run_call_A_cyto (A : list Q) :
  Nan.call_A_cyto (on_floats kv) (Nan.num <$> A)
  = float_run Nan.num (call_A_cyto kv A).
Proof.
  unfold Nan.call_A_cyto, call_A_cyto, float_run. simpl.
  by rewrite numbers_fmap.
Qed.

Lemma float_run_call_P_cyto (P : list Q) :
  Nan.call_P_cyto (on_floats kv) (Nan.num <$> P)
  = float_run Nan.num (call_P_cyto kv P).
Proof.
  unfold Nan.call_P_cyto, call_P_cyto, float_run. simpl.
  by rewrite numbers_fmap.
Qed.

Lemma float_run_disc_diffusion_term (Y : list Q) (i : Z) :
  Nan.disc_diffusion_term (on_floats kv) (Nan.num <$> Y) i
  = float_run Nan.num (disc_diffusion_term kv Y i).
Proof.
  unfold Nan.disc_diffusion_term, disc_diffusion_term.
  change (Nx (on_floats kv)) with (Nx kv).
  destruct (i =? 0)%Z; [|destruct (i =? Nx kv - 1)%Z]; repeat run_step.
Qed.

Lemma float_run_flux (Y : list Q) (i : Z) :
  Nan.flux (on_floats kv) (Nan.num <$> Y) t i
  = float_run Nan.num (flux kv Y t i).
Proof.
  unfold Nan.flux, flux.
  eapply float_run_bind; [apply float_run_getitem_grid|]. intros x.
  eapply float_run_bind; [apply float_run_call_v_func|]. intros v.
  repeat run_step.
Qed.

Lemma float_run_disc_spatial_derivative (Y : list Q) (i : Z) :
  Nan.disc_spatial_derivative (on_floats kv)
    (Nan.flux (on_floats kv) (Nan.num <$> Y) t) i
  = float_run Nan.num (disc_spatial_derivative kv (flux kv Y t) i).
Proof.
  unfold Nan.disc_spatial_derivative, disc_spatial_derivative.
  eapply float_run_bind; [apply float_run_flux|]. intros f1.
  eapply float_run_bind; [apply float_run_flux|]. intros f0.
  reflexivity.
Qed.

Lemma float_run_right_boundary_flux (Y : list Q) :
  Nan.right_boundary_flux (on_floats kv) (Nan.num <$> Y) t
  = float_run Nan.num (right_boundary_flux kv Y t).
Proof.
  unfold Nan.right_boundary_flux, right_boundary_flux.
  eapply float_run_bind; [apply float_run_getitem_grid|]. intros x2.
  eapply float_run_bind; [apply float_run_call_v_func|]. intros v2.
  eapply float_run_bind; [apply float_run_getitem|]. intros y2.
  eapply float_run_bind; [apply float_run_getitem_grid|]. intros x1.
  eapply float_run_bind; [apply float_run_call_v_func|]. intros v1.
  eapply float_run_bind; [apply float_run_getitem|]. intros y1.
  reflexivity.
Qed.

Lemma float_run_R_A (A P : list Q) (c : Q) (i : Z) :
  Nan.R_A (on_floats kv) (Nan.num <$> A) (Nan.num <$> P) (Nan.num c) t i
  = float_run Nan.num (R_A kv A P c t i).
Proof.
  unfold Nan.R_A, R_A. repeat run_step.
  cbn [on_floats Nan.par]. rewrite float_pow_number. reflexivity.
Qed.

Lemma float_run_R_P (A P : list Q) (c : Q) (i : Z) :
  Nan.R_P (on_floats kv) (Nan.num <$> A) (Nan.num <$> P) (Nan.num c) t i
  = float_run Nan.num (R_P kv A P c t i).
Proof.
  unfold Nan.R_P, R_P. repeat run_step.
  cbn [on_floats Nan.par]. rewrite float_pow_number. reflexivity.
Qed.

Lemma float_run_plot_failure (U : list Q) :
  Nan.plot_failure (Nan.num <$> U) t (on_floats kv)
  = float_run id (plot_failure U t kv).
Proof.
  unfold Nan.plot_failure, plot_failure.
  eapply float_run_bind with (h := id).
  - apply (float_run_for_each id). intros x []. reflexivity.
  - intros []. reflexivity.
Qed.

End Agreement.

Lemma test_fires_numbers (U : list Q) :
  test_fires (Nan.num <$> U) = diverges U.
Proof.
  destruct U as [|u U]; [reflexivity|]. cbn [fmap list_fmap test_fires].
  unfold number_diverges, diverges.
  change (Nan.num u :: (Nan.num <$> U)) with (Nan.num <$> (u :: U)).
  induction (u :: U) as [|y Y IH]; [reflexivity|].
  cbn [fmap list_fmap existsb]. cbn [fmap] in IH. by rewrite IH.
Qed.

(** On a state of numbers, under a configuration written for numbers, the
    right-hand side on floats runs as the right-hand side on numbers does:
    the same exception or the same vector, after the same calls. *)
Lemma odefunc_on_numbers (t : Q) (U : list Q) (kv : kvals) :
  Nan.odefunc t (Nan.num <$> U) (on_floats kv)
  = float_run (fmap Nan.num) (odefunc t U kv).
Proof.
  unfold Nan.odefunc, odefunc.
  change (Nx (on_floats kv)) with (Nx kv).
  change (D_A (on_floats kv)) with (D_A kv).
  change (D_P (on_floats kv)) with (D_P kv).
  replace (len (Nan.num <$> U)) with (len U)
    by (unfold len; by rewrite length_fmap).
  eapply float_run_bind with (h := id).
  { unfold Nan.assert, assert. by destruct (len U =? 2 * Nx kv)%Z. }
  intros _.
  destruct (decide (U = [])) as [->|HU]; [reflexivity|].
  rewrite float_divergence_test by (by destruct U).
  rewrite divergence_test by done.
  rewrite test_fires_numbers.
  destruct (diverges U).
  - eapply float_run_bind with (h := id); [reflexivity|]. intros _.
    eapply float_run_bind; [apply float_run_plot_failure|]. intros _.
    reflexivity.
  - destruct (float_slices U (Nx kv)) as [-> ->].
    eapply float_run_bind; [apply float_run_zeros|]. intros dudt_A.
    eapply float_run_bind; [apply float_run_zeros|]. intros dudt_P.
    eapply float_run_bind; [apply float_run_call_A_cyto|]. intros A_cyto_r.
    eapply float_run_bind; [apply float_run_call_P_cyto|]. intros P_cyto_r.
    eapply float_run_bind; [apply float_run_disc_diffusion_term|]. intros dA.
    eapply float_run_bind; [apply float_run_right_boundary_flux|]. intros fA.
    eapply float_run_bind; [apply float_run_R_A|]. intros rA.
    eapply float_run_bind; [apply float_run_setitem|]. intros dudt_A'.
    eapply float_run_bind; [apply float_run_disc_diffusion_term|]. intros dP.
    eapply float_run_bind; [apply float_run_right_boundary_flux|]. intros fP.
    eapply float_run_bind; [apply float_run_R_P|]. intros rP.
    eapply float_run_bind; [apply float_run_setitem|]. intros dudt_P'.
    eapply float_run_bind
      with (h := prod_map (fmap Nan.num) (fmap Nan.num)).
    { apply (float_run_for_each
               (prod_map (fmap Nan.num) (fmap Nan.num)) _ _ _
               (dudt_A', dudt_P')).
      intros x_i [dA' dP']. cbn [prod_map fst snd].
      eapply float_run_bind; [apply float_run_disc_diffusion_term|].
      intros ?.
      eapply float_run_bind; [apply float_run_disc_spatial_derivative|].
      intros ?.
      eapply float_run_bind; [apply float_run_R_A|]. intros ?.
      eapply float_run_bind; [apply float_run_setitem|]. intros ?.
      eapply float_run_bind; [apply float_run_disc_diffusion_term|].
      intros ?.
      eapply float_run_bind; [apply float_run_disc_spatial_derivative|].
      intros ?.
      eapply float_run_bind; [apply float_run_R_P|]. intros ?.
      eapply float_run_bind; [apply float_run_setitem|]. intros ?.
      reflexivity. }
    intros [dA' dP']. cbn [prod_map fst snd].
    unfold float_run, Nan.ravel, Np.ravel. cbn [fst snd mret M_ret ret].
    cbn [mjoin list_join fmap list_fmap]. by rewrite !app_nil_r, fmap_app.
Qed.
